(** * Loyalty-rewards backend: QR redemption and point adjustment

    A shallow embedding of the request handlers of the customer backend
    ([POST /api/scan-qr] and [PATCH /api/customers/:username/points]) and of
    the JavaScript string primitives they call, followed by the properties of
    the redemption subsystem.

    Conventions of the embedding.
    - A JavaScript string is the list of its UTF-16 code units ([jsstring]).
    - A JavaScript number holding an integer is a [Z]; [NaN] is [None].  The
      embedding is exact wherever the JavaScript value is an integer that a
      double represents exactly; the properties of credited and adjusted
      balances state that range ([safe_integers]).
    - A MongoDB collection is the list of its documents in natural order; the
      position of a document in the list plays the role of its storage
      identity.  Store calls never fail for infrastructure reasons.
    - Every [await] of a handler is one atomic store action; a handler is a
      tree of such actions, so that the same handler can be run to completion
      or interleaved with other requests.

    After the redemption subsystem come the other endpoints and validators
    of the backend: reading points, the scheme catalogue, the token of a
    request, the query of a login, and the patterns for phone numbers,
    addresses and batch sizes. *)

From Stdlib Require Import ZArith NArith List Bool Lia String Ascii.
From stdpp Require Import base option list numbers.

Local Open Scope Z_scope.

(** ** JavaScript strings *)

Module JS.

Definition jsstring := list N.

(** Code units of an ASCII literal. *)
Definition js (s : string) : jsstring :=
  List.map N_of_ascii (list_ascii_of_string s).

Definition LF : N := 10%N.
Definition COLON : N := 58%N.

(** WhiteSpace and LineTerminator code points, as removed by
    [String.prototype.trim] and skipped by [parseInt]. *)
Definition is_white_space (c : N) : bool :=
  (  (9 <=? c) && (c <=? 13)
  || (c =? 32) || (c =? 160) || (c =? 5760)
  || (8192 <=? c) && (c <=? 8202)
  || (c =? 8232) || (c =? 8233) || (c =? 8239) || (c =? 8287)
  || (c =? 12288) || (c =? 65279))%N.

Fixpoint trimStart (s : jsstring) : jsstring :=
  match s with
  | [] => []
  | c :: s' => if is_white_space c then trimStart s' else s
  end.

Definition trimEnd (s : jsstring) : jsstring := rev (trimStart (rev s)).

Definition trim (s : jsstring) : jsstring := trimEnd (trimStart s).

(** [s.startsWith(p)] *)
Fixpoint startsWith (s p : jsstring) {struct p} : bool :=
  match p, s with
  | [], _ => true
  | _ :: _, [] => false
  | a :: p', c :: s' => (c =? a)%N && startsWith s' p'
  end.

(** [s.split(sep)] for a one-unit separator: never empty, and the empty
    string splits into one empty piece. *)
Fixpoint split (sep : N) (s : jsstring) : list jsstring :=
  match s with
  | [] => [[]]
  | c :: s' =>
      if (c =? sep)%N then [] :: split sep s'
      else match split sep s' with
           | [] => [[c]]
           | piece :: pieces => (c :: piece) :: pieces
           end
  end.

(** Value of a code unit as a digit in radix [R], if it is one. *)
Definition digit (R : Z) (c : N) : option Z :=
  let v := Z.of_N c in
  let d := if (48 <=? v) && (v <=? 57) then Some (v - 48)
           else if (97 <=? v) && (v <=? 122) then Some (v - 87)
           else if (65 <=? v) && (v <=? 90) then Some (v - 55)
           else None in
  match d with
  | Some n => if n <? R then Some n else None
  | None => None
  end.

(** The longest prefix of radix-[R] digits, as digit values. *)
Fixpoint digits (R : Z) (s : jsstring) : list Z :=
  match s with
  | [] => []
  | c :: s' => match digit R c with
               | Some d => d :: digits R s'
               | None => []
               end
  end.

Definition number_of (R : Z) (ds : list Z) : Z :=
  fold_left (fun acc d => acc * R + d) ds 0.

(** [parseInt(s, R)] once sign and prefix are gone: [None] is [NaN]. *)
Definition parse_digits (R : Z) (sign : Z) (s : jsstring) : option Z :=
  match digits R s with
  | [] => None
  | ds => Some (sign * number_of R ds)
  end.

Definition strip_sign (s : jsstring) : Z * jsstring :=
  match s with
  | 45%N :: s' => (-1, s')
  | 43%N :: s' => (1, s')
  | _ => (1, s)
  end.

(** [parseInt(s)] with no radix argument: leading white space is skipped, a
    sign is read, a [0x]/[0X] prefix selects radix 16, otherwise radix 10;
    whatever follows the digits is ignored. *)
Definition parseInt (s : jsstring) : option Z :=
  let '(sign, body) := strip_sign (trimStart s) in
  match body with
  | 48%N :: 120%N :: hex | 48%N :: 88%N :: hex => parse_digits 16 sign hex
  | _ => parse_digits 10 sign body
  end.

(** [parseInt(s, 10)]: the same without the hexadecimal prefix. *)
Definition parseInt10 (s : jsstring) : option Z :=
  let '(sign, body) := strip_sign (trimStart s) in
  parse_digits 10 sign body.

(** Joining lines with line feeds, to write payloads down. *)
Fixpoint unlines (ls : list jsstring) : jsstring :=
  match ls with
  | [] => []
  | [l] => l
  | l :: ls' => l ++ LF :: unlines ls'
  end.

End JS.

Import JS.

(** ** The scan payload parser (the inner [try] block of [/api/scan-qr]) *)

Definition QR_ID : jsstring := js "QR ID:".
Definition BATCH_ID : jsstring := js "Batch ID:".
Definition POINTS : jsstring := js "Points:".

(** The predicate handed to [lines.find] for a label. *)
Definition label_line (label : jsstring) (line : jsstring) : bool :=
  startsWith (trim line) label.

(** [!line] for the result of [lines.find]: [undefined] and the empty string
    are falsy. *)
Definition falsy (line : option jsstring) : bool :=
  match line with
  | None => true
  | Some [] => true
  | Some (_ :: _) => false
  end.

(** [line.split(':')[1]]: [None] is [undefined], on which [.trim()] throws. *)
Definition second_piece (line : jsstring) : option jsstring :=
  split COLON line !! 1%nat.

Definition parse_qr_data (qrData : jsstring)
  : option (jsstring * jsstring * Z) :=
  let lines := split LF qrData in
  let qrIdLine := List.find (label_line QR_ID) lines in
  let batchIdLine := List.find (label_line BATCH_ID) lines in
  let pointsLine := List.find (label_line POINTS) lines in
  if falsy qrIdLine || falsy batchIdLine || falsy pointsLine then None
  else
    match qrIdLine ≫= second_piece,
          batchIdLine ≫= second_piece,
          pointsLine ≫= second_piece with
    | Some q, Some b, Some p =>
        let qrId := trim q in
        let batchId := trim b in
        match parseInt (trim p) with
        | None => None
        | Some points =>
            if points <=? 0 then None else Some (qrId, batchId, points)
        end
    | _, _, _ => None
    end.

(** The text handed to [parseInt]: [pointsLine.split(':')[1].trim()]. *)
Definition points_field (qrData : jsstring) : option jsstring :=
  trim <$> (List.find (label_line POINTS) (split LF qrData) ≫= second_piece).

(** ** Vocabulary for statements about the parser *)

(** The three labels the parser looks for. *)
Definition is_label (label : jsstring) : Prop :=
  label = QR_ID \/ label = BATCH_ID \/ label = POINTS.

(** A string of white space only. *)
Definition white (w : jsstring) : Prop :=
  Forall (fun c => is_white_space c = true) w.

(** No line of the payload carries the label. *)
Definition absent (label : jsstring) (qrData : jsstring) : Prop :=
  Forall (fun line => label_line label line = false) (split LF qrData).

(** [line] is the first of [lines] that carries the label. *)
Definition first_line (label : jsstring) (lines : list jsstring)
    (line : jsstring) : Prop :=
  exists before after,
    lines = before ++ line :: after /\
    label_line label line = true /\
    Forall (fun l => label_line label l = false) before.

(** The conditions under which the parser gives up: a label is absent, or
    [parseInt] of the points field is [NaN], or it is not positive. *)
Definition malformed (qrData : jsstring) : Prop :=
  absent QR_ID qrData \/ absent BATCH_ID qrData \/ absent POINTS qrData \/
  exists p, points_field qrData = Some p /\
            (parseInt p = None \/ exists n, parseInt p = Some n /\ n <= 0).

(** Readings of the specification that the code is compared with. *)
Module SpecReading.

(** The same conditions with the points field read as a base-10 integer. *)
Definition malformed_base10 (qrData : jsstring) : Prop :=
  absent QR_ID qrData \/ absent BATCH_ID qrData \/ absent POINTS qrData \/
  exists p, points_field qrData = Some p /\
            (parseInt10 p = None \/ exists n, parseInt10 p = Some n /\ n <= 0).

(** Lower case of the letters A to Z. *)
Definition lower (c : N) : N :=
  if ((65 <=? c) && (c <=? 90))%N then (c + 32)%N else c.


End SpecReading.

(** ** Persisted records ([models/customer.ts], [models/qrs.ts])

    Only the fields the two handlers read or write are kept; the handlers
    carry every other field of a document along unchanged. *)

Module Customer.
Record t := mk {
  _id : jsstring;
  name : jsstring;
  username : jsstring;
  points : Z
}.
End Customer.

Module QRItem.
Record t := mk {
  qrId : jsstring;
  qrCodeUrl : jsstring;
  isScanned : bool
}.
End QRItem.

Module QRBatch.
Record t := mk {
  batchId : jsstring;
  qrCodes : list QRItem.t;
  isActive : bool
}.
End QRBatch.

Record Store := mkStore {
  Customers : list Customer.t;
  QRBatches : list QRBatch.t
}.

(** ** Store actions, one per awaited call *)

(** [QRBatch.findOne({ batchId, isActive: true })]: the first matching
    document, with its position. *)
Definition findActiveBatch (batchId : jsstring) (db : Store)
  : option (nat * QRBatch.t) :=
  list_find (fun b => QRBatch.batchId b = batchId /\ QRBatch.isActive b = true)
            (QRBatches db).

(** [Customer.findByIdAndUpdate(id, { $inc: { points } }, { new: true })]:
    the updated document, or [None] when no customer has this id. *)
Definition incPoints (id : jsstring) (inc : Z) (db : Store)
  : option Customer.t * Store :=
  match list_find (fun c => Customer._id c = id) (Customers db) with
  | None => (None, db)
  | Some (i, c) =>
      let c' := Customer.mk (Customer._id c) (Customer.name c)
                            (Customer.username c) (Customer.points c + inc) in
      (Some c', mkStore (<[i := c']> (Customers db)) (QRBatches db))
  end.

Definition markScanned (qr : QRItem.t) : QRItem.t :=
  QRItem.mk (QRItem.qrId qr) (QRItem.qrCodeUrl qr) true.

(** [qrCode.isScanned = true; qrBatch.save()]: the save writes the one
    modified path, [qrCodes.j.isScanned], of the document it was loaded
    from. *)
Definition saveScanned (doc j : nat) (db : Store) : Store :=
  mkStore (Customers db)
          (alter (fun b => QRBatch.mk (QRBatch.batchId b)
                                      (alter markScanned j (QRBatch.qrCodes b))
                                      (QRBatch.isActive b))
                 doc (QRBatches db)).

(** [Customer.findOne({ username })] *)
Definition findByUsername (username : jsstring) (db : Store)
  : option (nat * Customer.t) :=
  list_find (fun c => Customer.username c = username) (Customers db).

(** [Customer.findOneAndUpdate({ username }, { points }, { new: true })] *)
Definition setPoints (username : jsstring) (newPoints : Z) (db : Store)
  : option Customer.t * Store :=
  match findByUsername username db with
  | None => (None, db)
  | Some (i, c) =>
      let c' := Customer.mk (Customer._id c) (Customer.name c)
                            (Customer.username c) newPoints in
      (Some c', mkStore (<[i := c']> (Customers db)) (QRBatches db))
  end.

(** ** Handlers as trees of store actions *)

Inductive handler (R : Type) : Type :=
| Respond (r : R)
| QRBatch_findOne (batchId : jsstring)
                  (k : option (nat * QRBatch.t) -> handler R)
| Customer_findByIdAndUpdate (id : jsstring) (inc : Z)
                             (k : option Customer.t -> handler R)
| QRBatch_save (doc j : nat) (k : handler R)
| Customer_findOne (username : jsstring)
                   (k : option Customer.t -> handler R)
| Customer_findOneAndUpdate (username : jsstring) (newPoints : Z)
                            (k : option Customer.t -> handler R).

Arguments Respond {R} r.
Arguments QRBatch_findOne {R} batchId k.
Arguments Customer_findByIdAndUpdate {R} id inc k.
Arguments QRBatch_save {R} doc j k.
Arguments Customer_findOne {R} username k.
Arguments Customer_findOneAndUpdate {R} username newPoints k.

(** One store round trip of a handler; a handler that has responded stays
    put. *)
Definition step {R} (h : handler R) (db : Store) : handler R * Store :=
  match h with
  | Respond r => (Respond r, db)
  | QRBatch_findOne batchId k => (k (findActiveBatch batchId db), db)
  | Customer_findByIdAndUpdate id inc k =>
      let '(c, db') := incPoints id inc db in (k c, db')
  | QRBatch_save doc j k => (k, saveScanned doc j db)
  | Customer_findOne username k =>
      (k (snd <$> findByUsername username db), db)
  | Customer_findOneAndUpdate username newPoints k =>
      let '(c, db') := setPoints username newPoints db in (k c, db')
  end.

(** A request served alone: the handler runs to its response. *)
Fixpoint run {R} (h : handler R) (db : Store) : R * Store :=
  match h with
  | Respond r => (r, db)
  | QRBatch_findOne batchId k => run (k (findActiveBatch batchId db)) db
  | Customer_findByIdAndUpdate id inc k =>
      let '(c, db') := incPoints id inc db in run (k c) db'
  | QRBatch_save doc j k => run k (saveScanned doc j db)
  | Customer_findOne username k =>
      run (k (snd <$> findByUsername username db)) db
  | Customer_findOneAndUpdate username newPoints k =>
      let '(c, db') := setPoints username newPoints db in run (k c) db'
  end.

(** ** [POST /api/scan-qr] *)

Record CustomerSummary := mkSummary {
  summary_id : jsstring;
  summary_name : jsstring;
  summary_username : jsstring;
  summary_points : Z
}.

Inductive ScanResponse : Type :=
| QRDataRequired      (* 400, "QR data is required" *)
| MalformedPayload    (* 400, "Invalid QR code format. ..." *)
| BatchNotFound       (* 404, "QR batch not found or inactive" *)
| CodeNotFound        (* 404, "QR code not found in batch" *)
| AlreadyRedeemed     (* 400, "This QR code has already been scanned ..." *)
| CustomerNotFound    (* 404, "Customer not found" *)
| Success (pointsEarned totalPoints : Z) (qrId batchId : jsstring)
          (customer : CustomerSummary).   (* 200 *)

Definition status (r : ScanResponse) : Z :=
  match r with
  | QRDataRequired | MalformedPayload | AlreadyRedeemed => 400
  | BatchNotFound | CodeNotFound | CustomerNotFound => 404
  | Success _ _ _ _ _ => 200
  end.

Definition scan_qr (user_id : jsstring) (qrData : jsstring)
  : handler ScanResponse :=
  match qrData with
  | [] => Respond QRDataRequired
  | _ :: _ =>
    match parse_qr_data qrData with
    | None => Respond MalformedPayload
    | Some (qrId, batchId, points) =>
      QRBatch_findOne batchId (fun found =>
      match found with
      | None => Respond BatchNotFound
      | Some (doc, qrBatch) =>
        match list_find (fun qr => QRItem.qrId qr = qrId)
                        (QRBatch.qrCodes qrBatch) with
        | None => Respond CodeNotFound
        | Some (j, qrCode) =>
          if QRItem.isScanned qrCode then Respond AlreadyRedeemed
          else
            Customer_findByIdAndUpdate user_id points (fun updated =>
            match updated with
            | None => Respond CustomerNotFound
            | Some customer =>
              QRBatch_save doc j
                (Respond (Success points (Customer.points customer)
                                  qrId batchId
                                  (mkSummary (Customer._id customer)
                                             (Customer.name customer)
                                             (Customer.username customer)
                                             (Customer.points customer))))
            end)
        end
      end)
    end
  end.

(** Every response but the successful one. *)
Definition rejected (r : ScanResponse) : Prop :=
  match r with
  | Success _ _ _ _ _ => False
  | _ => True
  end.

(** ** [PATCH /api/customers/:username/points] *)

Definition ADD : jsstring := js "add".
Definition SUBTRACT : jsstring := js "subtract".
Definition SET : jsstring := js "set".

(** The request body: [points] is [None] when it is not a number,
    [operation] is [None] when the field is absent. *)
Record PointsBody := mkBody {
  body_points : option Z;
  body_operation : option jsstring
}.

(** The [switch (operation)] of the handler. *)
Definition newPoints (operation : jsstring) (balance points : Z) : Z :=
  if decide (operation = ADD) then balance + points
  else if decide (operation = SUBTRACT) then Z.max 0 (balance - points)
  else Z.max 0 points.

Inductive PointsResponse : Type :=
| PointsNotNumber       (* 400, "Points must be a number" *)
| NoSuchCustomer        (* 404, "Customer not found" *)
| Updated (previousPoints : Z) (currentPoints : option Z)
          (operation : jsstring).   (* 200 *)

(** [username] is the value of the filter as the store receives it; the
    cast of the route parameter comes with [patch_customer_points]. *)
Definition update_points (username : jsstring) (body : PointsBody)
  : handler PointsResponse :=
  let operation := default SET (body_operation body) in
  match body_points body with
  | None => Respond PointsNotNumber
  | Some points =>
    Customer_findOne username (fun found =>
    match found with
    | None => Respond NoSuchCustomer
    | Some customer =>
      let newPoints := newPoints operation (Customer.points customer) points in
      Customer_findOneAndUpdate username newPoints (fun updatedCustomer =>
      Respond (Updated (Customer.points customer)
                       (Customer.points <$> updatedCustomer)
                       operation))
    end)
  end.

(** ** Requests in flight together

    The pool holds one handler per request; a schedule names, round trip by
    round trip, the request whose next store action is carried out. *)

Definition pool_step {R} (i : nat) (st : list (handler R) * Store)
  : list (handler R) * Store :=
  match st.1 !! i with
  | None => st
  | Some h => let '(h', db') := step h st.2 in (<[i := h']> st.1, db')
  end.

Definition interleave {R} (schedule : list nat)
  (st : list (handler R) * Store) : list (handler R) * Store :=
  fold_left (fun st i => pool_step i st) schedule st.

Definition response {R} (h : handler R) : option R :=
  match h with
  | Respond r => Some r
  | _ => None
  end.

(** ** Operations of the system on the store

    Besides the two handlers above, the account endpoints ([/register],
    [PUT /profile]) write customer documents; none of them names the batch
    collection, so they are any rewriting of the customer collection. *)

Inductive operation_step : Store -> Store -> Prop :=
| scan_step user_id qrData db :
    operation_step db (run (scan_qr user_id qrData) db).2
| points_step username body db :
    operation_step db (run (update_points username body) db).2
| account_step customers' db :
    operation_step db (mkStore customers' (QRBatches db)).

(** ** Observations on the store *)

(** The balance of the customer with a given id. *)
Definition balance (id : jsstring) (db : Store) : option Z :=
  (fun found => Customer.points found.2)
    <$> list_find (fun c => Customer._id c = id) (Customers db).

(** The code at position [j] of the batch at position [i]. *)
Definition code_at (i j : nat) (db : Store) : option QRItem.t :=
  QRBatches db !! i ≫= fun b => QRBatch.qrCodes b !! j.

Definition scanned (i j : nat) (db : Store) : option bool :=
  QRItem.isScanned <$> code_at i j db.

(** Uniqueness of [batchId] (a unique index of the schema) and of [qrId]
    within a batch. *)
Definition unique_batch_ids (db : Store) : Prop :=
  NoDup (QRBatch.batchId <$> QRBatches db).

Definition unique_qr_ids (b : QRBatch.t) : Prop :=
  NoDup (QRItem.qrId <$> QRBatch.qrCodes b).

(** The same request submitted [n] times, each served before the next. *)
Fixpoint replay {R} (n : nat) (h : handler R) (db : Store)
  : list R * Store :=
  match n with
  | O => ([], db)
  | S n' => let '(r, db') := run h db in
            let '(rs, db'') := replay n' h db' in
            (r :: rs, db'')
  end.

(** Requests served one after the other, each to its response. *)
Fixpoint serve {R} (hs : list (handler R)) (db : Store) : list R * Store :=
  match hs with
  | [] => ([], db)
  | h :: hs' => let '(r, db') := run h db in
                let '(rs, db'') := serve hs' db' in
                (r :: rs, db'')
  end.

(** The schedule on which requests do not overlap: request 0 has its three
    round trips (a redemption needs no more), then request 1, and so on. *)
Definition serial_from (first n : nat) : list nat :=
  flat_map (fun t => [t; t; t]) (seq first n).

Definition serial (n : nat) : list nat := serial_from 0 n.

(** The handlers of a list of redemption requests (caller, payload). *)
Definition redemptions (requests : list (jsstring * jsstring))
  : list (handler ScanResponse) :=
  (fun request => scan_qr request.1 request.2) <$> requests.

(** A history of the store: consecutive stores are one operation apart. *)
Inductive history : list Store -> Prop :=
| history_one db : history [db]
| history_cons db db' dbs :
    operation_step db db' -> history (db' :: dbs) -> history (db :: db' :: dbs).

(** The changes of value along a sequence of observations. *)
Fixpoint changes {A} `{EqDecision A} (xs : list A) : list (A * A) :=
  match xs with
  | x :: (y :: _) as xs' =>
      if decide (x = y) then changes xs' else (x, y) :: changes xs'
  | _ => []
  end.

(** What may happen to the code at one position between two stores: nothing,
    or an unscanned code has been marked scanned. *)
Definition code_le (c c' : option QRItem.t) : Prop :=
  c = c' \/
  exists qr, c = Some qr /\ QRItem.isScanned qr = false /\
             c' = Some (markScanned qr).

(** ** Sample data *)

Module Sample.

Definition payload : jsstring :=
  unlines [js "QR ID: A1"; js "Batch ID: B1"; js "Points: 50";
           js "URL: http://x"].

Definition ann : Customer.t := Customer.mk (js "c1") (js "Ann") (js "ann") 30.

Definition code (isScanned : bool) : QRItem.t :=
  QRItem.mk (js "A1") (js "/qr/A1.png") isScanned.

Definition batch (isScanned isActive : bool) : QRBatch.t :=
  QRBatch.mk (js "B1") [code isScanned] isActive.

(** Payloads that probe the parser. *)
Definition hex_points : jsstring :=
  unlines [js "QR ID: A1"; js "Batch ID: B1"; js "Points: 0x10"].



Definition colons : jsstring :=
  unlines [js "QR ID: A:B"; js "Batch ID: http://x"; js "Points: 5:3"].

(** One customer with 30 points, one batch holding one code. *)
Definition store (isScanned isActive : bool) : Store :=
  mkStore [ann] [batch isScanned isActive].

(** The store after a redemption, after the same payload once more, and
    after an administrative adjustment. *)
Definition after_scan : Store :=
  (run (scan_qr (js "c1") payload) (store false true)).2.

Definition after_replay : Store :=
  (run (scan_qr (js "c1") payload) after_scan).2.

Definition after_adjust : Store :=
  (run (update_points (js "ann") (mkBody (Some 5) None)) after_replay).2.

Definition stores : list Store :=
  [store false true; after_scan; after_replay; after_adjust].

(** Two requests for the same code, their store round trips alternating. *)
Definition two_requests : list (handler ScanResponse) :=
  [scan_qr (js "c1") payload; scan_qr (js "c1") payload].

Definition alternating : list nat := [0; 1; 0; 1; 0; 1]%nat.

End Sample.

(** ** [GET /api/customers/:username/points]

    [username] is the route parameter as the query matches it against the
    stored usernames. *)

Inductive PointsView : Type :=
| NoPoints                                    (* 404, "Customer not found" *)
| PointsOf (username name : jsstring) (points : Z).   (* 200 *)

Definition get_points (username : jsstring) : handler PointsView :=
  Customer_findOne username (fun found =>
  match found with
  | None => Respond NoPoints
  | Some customer =>
      Respond (PointsOf (Customer.username customer) (Customer.name customer)
                        (Customer.points customer))
  end).

(** The store after one adjustment request. *)
Definition adjust (operation : jsstring) (points : Z) (username : jsstring)
    (db : Store) : Store :=
  (run (update_points username (mkBody (Some points) (Some operation))) db).2.

(** Uniqueness of [username] (a unique index of the schema). *)
Definition unique_usernames (db : Store) : Prop :=
  NoDup (Customer.username <$> Customers db).

(** A customer document with another balance. *)
Definition with_points (c : Customer.t) (points : Z) : Customer.t :=
  Customer.mk (Customer._id c) (Customer.name c) (Customer.username c) points.

Module Ledger.

Definition bob : Customer.t := Customer.mk (js "c2") (js "Bob") (js "bob") 12.

(** Two customers and the batch of [Sample]. *)
Definition store : Store :=
  mkStore [Sample.ann; bob] [Sample.batch false true].

Definition subtract_100 : PointsBody := mkBody (Some 100) (Some SUBTRACT).

End Ledger.

(** ** [GET /api/schemes] ([models/scheme.ts])

    The handler only reads.  [schemes] is the collection in the order in
    which [Scheme.find().sort({ createdAt: -1 })] returns it; the count and
    the page are read from the same collection. *)

Module Scheme.
Record t := mk {
  title : jsstring;
  description : jsstring;
  image : option jsstring;
  pointsRequired : Z
}.
End Scheme.

(** One element of [data]: the scheme with [image] and [images] replaced. *)
Record SchemeView := mkView {
  view_title : jsstring;
  view_description : jsstring;
  view_pointsRequired : Z;
  view_image : option jsstring;
  view_images : option jsstring
}.

Record Pagination := mkPagination {
  currentPage : Z;
  totalPages : Z;
  totalSchemes : Z;
  hasNextPage : bool;
  hasPrevPage : bool
}.

(** A value in a template literal or handed to [parseInt]: [undefined]
    reads as the text "undefined". *)
Definition to_text (value : option jsstring) : jsstring :=
  default (js "undefined") value.

(** [n || d] on numbers: [NaN] and [0] give way to the default. *)
Definition or_default (n : option Z) (d : Z) : Z :=
  match n with
  | None | Some 0 => d
  | Some v => v
  end.

(** [parseInt(req.query.page) || 1] and [parseInt(req.query.limit) || 10]. *)
Definition page_number (query : option jsstring) : Z :=
  or_default (parseInt (to_text query)) 1.

Definition page_limit (query : option jsstring) : Z :=
  or_default (parseInt (to_text query)) 10.

(** [Math.ceil(a / b)] for a positive [b]. *)
Definition ceil_div (a b : Z) : Z := - ((- a) / b).

(** The image URL of one scheme: [None] is [null]. *)
Definition fullImageUrl (ADMIN_BACKEND_URL : option jsstring)
    (image : option jsstring) : option jsstring :=
  match image with
  | None | Some [] => None
  | Some image =>
      if startsWith image (js "http") then Some image
      else
        let imagePath :=
          if startsWith image (js "/") then image else js "/" ++ image in
        Some (to_text ADMIN_BACKEND_URL ++ imagePath)
  end.

Definition scheme_view (ADMIN_BACKEND_URL : option jsstring) (scheme : Scheme.t)
  : SchemeView :=
  let fullImageUrl := fullImageUrl ADMIN_BACKEND_URL (Scheme.image scheme) in
  mkView (Scheme.title scheme) (Scheme.description scheme)
         (Scheme.pointsRequired scheme) fullImageUrl fullImageUrl.

(** The 200 response, [data] and [pagination].  [None]: a negative [skip]
    or [limit] reaches the database driver, whose answer is not part of
    this embedding. *)
Definition get_schemes (page_query limit_query : option jsstring)
    (ADMIN_BACKEND_URL : option jsstring) (schemes : list Scheme.t)
  : option (list SchemeView * Pagination) :=
  let page := page_number page_query in
  let limit := page_limit limit_query in
  let skip := (page - 1) * limit in
  let totalSchemes := Z.of_nat (length schemes) in
  if (skip <? 0) || (limit <? 0) then None
  else
    let found := take (Z.to_nat limit) (drop (Z.to_nat skip) schemes) in
    let schemesWithImageUrls := scheme_view ADMIN_BACKEND_URL <$> found in
    let totalPages := ceil_div totalSchemes limit in
    Some (schemesWithImageUrls,
          mkPagination page totalPages totalSchemes
                       (page <? totalPages) (1 <? page)).

(** [data] of an answer. *)
Definition schemes_data (answer : option (list SchemeView * Pagination))
  : list SchemeView :=
  match answer with
  | Some (data, _) => data
  | None => []
  end.

Module Catalog.

Definition scheme (n : Z) (image : option jsstring) : Scheme.t :=
  Scheme.mk (js "Mug") (js "A mug") image n.

Definition schemes : list Scheme.t :=
  [scheme 1 (Some (js "https://cdn/a.png"));
   scheme 2 (Some (js "/uploads/b.png"));
   scheme 3 (Some (js "uploads/c.png"));
   scheme 4 None;
   scheme 5 (Some (js ""))].

Definition admin : option jsstring := Some (js "http://admin").

End Catalog.

(** ** [authenticateToken] *)

(** [s.replace(/\s+/g, ' ')]: every run of white space becomes one space.
    [in_run] tells that the unit before is white space already replaced. *)
Fixpoint replaceWhiteRuns (s : jsstring) (in_run : bool) : jsstring :=
  match s with
  | [] => []
  | c :: s' =>
      if is_white_space c
      then (if in_run then replaceWhiteRuns s' true
            else 32%N :: replaceWhiteRuns s' true)
      else c :: replaceWhiteRuns s' false
  end.

(** The variable [token] before it is tested: [None] is [undefined].  The
    cookie is looked at only when there is no Authorization header, or an
    empty one. *)
Definition request_token (authorization cookie : option jsstring)
  : option jsstring :=
  match authorization with
  | Some (c :: header) =>
      let authHeader := trim (replaceWhiteRuns (c :: header) false) in
      if startsWith authHeader (js "Bearer ")
      then Some (trim (drop 7 authHeader))
      else None
  | _ =>
      match cookie with
      | Some (c :: value) => Some (trim (c :: value))
      | _ => None
      end
  end.

Record JWTPayload := mkPayload {
  payload_username : jsstring;
  payload_id : jsstring
}.

Inductive AuthResult : Type :=
| Unauthorized            (* 401, "Access token required" *)
| Forbidden               (* 403, "Invalid or expired token" *)
| Next (user : JWTPayload).   (* next(), with req.user set *)

(** [verify] stands for [jwt.verify(token, secret)]: [None] when it
    throws. *)
Definition authenticateToken (verify : jsstring -> option JWTPayload)
    (authorization cookie : option jsstring) : AuthResult :=
  match request_token authorization cookie with
  | None | Some [] => Unauthorized
  | Some token =>
      match verify token with
      | Some decoded => Next decoded
      | None => Forbidden
      end
  end.

(** White space never comes twice in a row; [after_white] tells that the
    unit before is white space. *)
Fixpoint single_spaced (after_white : bool) (s : jsstring) : bool :=
  match s with
  | [] => true
  | c :: s' =>
      if is_white_space c then negb after_white && single_spaced true s'
      else single_spaced false s'
  end.

(** A string without white space. *)
Definition visible (t : jsstring) : Prop :=
  Forall (fun c => is_white_space c = false) t.

Module Tokens.

(** A verifier that knows one token. *)
Definition verify (token : jsstring) : option JWTPayload :=
  if decide (token = js "abc.def") then Some (mkPayload (js "ann") (js "c1"))
  else None.

End Tokens.

(** ** Regular expressions

    The patterns of the source are all anchored at both ends and are used
    through [test] only, so a pattern is the set of strings it matches in
    full.  [Unit p] is a character class. *)

Inductive regex : Type :=
| Never
| Empty
| Unit (p : N -> bool)
| Seq (r1 r2 : regex)
| Alt (r1 r2 : regex)
| Star (r : regex).

(** [r+] and [r{n}] *)
Definition Plus (r : regex) : regex := Seq r (Star r).

Fixpoint Times (n : nat) (r : regex) : regex :=
  match n with
  | O => Empty
  | S n' => Seq r (Times n' r)
  end.

Fixpoint nullable (r : regex) : bool :=
  match r with
  | Never => false
  | Empty => true
  | Unit _ => false
  | Seq r1 r2 => nullable r1 && nullable r2
  | Alt r1 r2 => nullable r1 || nullable r2
  | Star _ => true
  end.

(** What is left of the pattern once the code unit [c] is read. *)
Fixpoint derive (c : N) (r : regex) : regex :=
  match r with
  | Never => Never
  | Empty => Never
  | Unit p => if p c then Empty else Never
  | Seq r1 r2 =>
      if nullable r1 then Alt (Seq (derive c r1) r2) (derive c r2)
      else Seq (derive c r1) r2
  | Alt r1 r2 => Alt (derive c r1) (derive c r2)
  | Star r' => Seq (derive c r') (Star r')
  end.

(** [/^r$/.test(s)] *)
Fixpoint test (r : regex) (s : jsstring) : bool :=
  match s with
  | [] => nullable r
  | c :: s' => test (derive c r) s'
  end.

(** The strings of a pattern. *)
Inductive matches : regex -> jsstring -> Prop :=
| matches_empty : matches Empty []
| matches_unit p c : p c = true -> matches (Unit p) [c]
| matches_seq r1 r2 s1 s2 :
    matches r1 s1 -> matches r2 s2 -> matches (Seq r1 r2) (s1 ++ s2)
| matches_alt_l r1 r2 s : matches r1 s -> matches (Alt r1 r2) s
| matches_alt_r r1 r2 s : matches r2 s -> matches (Alt r1 r2) s
| matches_star_nil r : matches (Star r) []
| matches_star_more r s1 s2 :
    matches r s1 -> matches (Star r) s2 -> matches (Star r) (s1 ++ s2).

(** ** Patterns of the source *)

(** [[0-9]], also [\d] *)
Definition is_digit (c : N) : bool := ((48 <=? c) && (c <=? 57))%N.

(** [[^\s@]] *)
Definition is_address_unit (c : N) : bool :=
  negb (is_white_space c) && negb (c =? 64)%N.

Definition AT : N := 64%N.
Definition DOT : N := 46%N.
Definition LETTER_X : N := 120%N.

(** [/^[0-9]{10}$/] *)
Definition phoneRegex : regex := Times 10 (Unit is_digit).

(** [/^[^\s@]+@[^\s@]+\.[^\s@]+$/] *)
Definition emailRegex : regex :=
  Seq (Plus (Unit is_address_unit))
      (Seq (Unit (N.eqb AT))
           (Seq (Plus (Unit is_address_unit))
                (Seq (Unit (N.eqb DOT)) (Plus (Unit is_address_unit))))).

(** [/^\d+x\d+$/] *)
Definition sizePattern : regex :=
  Seq (Plus (Unit is_digit)) (Seq (Unit (N.eqb LETTER_X)) (Plus (Unit is_digit))).

(** ** The query of [/login] *)

(** [s.includes(c)] for a one-unit [c] *)
Definition includes (s : jsstring) (c : N) : bool := existsb (N.eqb c) s.

Inductive LoginQuery : Type :=
| ByEmail (email : jsstring)
| ByPhone (phone : jsstring)
| ByUsername (username : jsstring).

(** [toLowerCase] stands for [String.prototype.toLowerCase]. *)
Definition login_query (toLowerCase : jsstring -> jsstring)
    (identifier : jsstring) : LoginQuery :=
  let trimmedIdentifier := trim identifier in
  if includes trimmedIdentifier AT then ByEmail (toLowerCase trimmedIdentifier)
  else if test phoneRegex trimmedIdentifier then ByPhone trimmedIdentifier
  else ByUsername (toLowerCase trimmedIdentifier).

(** ** The validator of [size] ([models/qrs.ts]) *)

(** [Number(s)] for a string of decimal digits, the only strings the
    validator passes to it; [None] stands for its value on other strings. *)
Definition NumberOfDigits (s : jsstring) : option Z :=
  match s with
  | [] => None
  | _ :: _ => if forallb is_digit s then Some (number_of 10 (digits 10 s))
              else None
  end.

Definition size_validator (v : jsstring) : bool :=
  if negb (test sizePattern v) then false
  else
    match split LETTER_X v with
    | w :: h :: _ =>
        match NumberOfDigits w, NumberOfDigits h with
        | Some width, Some height =>
            (width =? height) && (10 <=? width) && (width <=? 1000000)
        | _, _ => false
        end
    | _ => false
    end.

(** A string of decimal digits, at least one. *)
Definition numeral (s : jsstring) : Prop :=
  s <> [] /\ Forall (fun c => is_digit c = true) s.

(** A part of an address: no white space, no [@], not empty. *)
Definition address_part (s : jsstring) : Prop :=
  s <> [] /\ Forall (fun c => is_address_unit c = true) s.

Module Accounts.

(** Lower case of the letters A to Z, for running [login_query]. *)
Definition ascii_lower (s : jsstring) : jsstring := SpecReading.lower <$> s.

End Accounts.

(** ** Requests of different kinds in flight together *)

(** A handler with its response relabelled, so that handlers of different
    endpoints fit in one pool. *)
Fixpoint map_handler {A B} (f : A -> B) (h : handler A) : handler B :=
  match h with
  | Respond r => Respond (f r)
  | QRBatch_findOne batchId k =>
      QRBatch_findOne batchId (fun found => map_handler f (k found))
  | Customer_findByIdAndUpdate id inc k =>
      Customer_findByIdAndUpdate id inc (fun updated => map_handler f (k updated))
  | QRBatch_save doc j k => QRBatch_save doc j (map_handler f k)
  | Customer_findOne username k =>
      Customer_findOne username (fun found => map_handler f (k found))
  | Customer_findOneAndUpdate username newPoints k =>
      Customer_findOneAndUpdate username newPoints
        (fun updated => map_handler f (k updated))
  end.

(** An adjustment and a redemption in one pool. *)
Definition adjust_and_redeem (username : jsstring) (body : PointsBody)
    (user_id qrData : jsstring)
  : list (handler (PointsResponse + ScanResponse)) :=
  [map_handler inl (update_points username body);
   map_handler inr (scan_qr user_id qrData)].

(** The adjustment reads, the redemption runs its three round trips, the
    adjustment writes. *)
Definition read_redeem_write : list nat := [0; 1; 1; 1; 0]%nat.

(** ** Numbers

    A JavaScript number is a double.  [Number.isSafeInteger] holds of the
    integers from [- MAX_SAFE_INTEGER] to [MAX_SAFE_INTEGER], that is
    [2^53 - 1]: a double holds each of them exactly, and the sum and the
    difference of two of them as well when these lie in the range.  On such
    values the integer arithmetic of [parseInt], [incPoints] and
    [newPoints] is the arithmetic of the program; beyond them a double
    rounds, and [$inc] of 1 on a balance of [2^53] leaves the balance as it
    is. *)
Definition MAX_SAFE_INTEGER : Z := 9007199254740991.

Definition isSafeInteger (n : Z) : bool :=
  (- MAX_SAFE_INTEGER <=? n) && (n <=? MAX_SAFE_INTEGER).

Definition safe_integers (ns : list Z) : Prop :=
  Forall (fun n => isSafeInteger n = true) ns.

(** ** The route parameter of an adjustment

    [PATCH /api/customers/:username/points] hands [req.params.username] to
    [Customer.findOne] and [Customer.findOneAndUpdate] as the value of the
    path [username] of the filter.  Mongoose casts a filter by the schema
    before it reaches the store, and the schema of this path has the
    setters [lowercase] and [trim] (customer.ts, l.30-36): the store is
    asked for the parameter in lower case and trimmed.  [toLowerCase] is
    [String.prototype.toLowerCase]. *)
Definition cast_username (toLowerCase : jsstring -> jsstring)
    (value : jsstring) : jsstring :=
  trim (toLowerCase value).

Definition patch_customer_points (toLowerCase : jsstring -> jsstring)
    (param : jsstring) (body : PointsBody) : handler PointsResponse :=
  update_points (cast_username toLowerCase param) body.

(** * Properties *)

(** ** The embedding on concrete inputs *)

Example parse_spec_payload :
  parse_qr_data Sample.payload = Some (js "A1", js "B1", 50).
Proof. reflexivity. Qed.

Example parse_missing_points :
  parse_qr_data (unlines [js "QR ID: A1"; js "Batch ID: B1"]) = None.
Proof. reflexivity. Qed.

Example parse_trailing_text :
  parse_qr_data (unlines [js "QR ID: A1"; js "Batch ID: B1";
                          js "Points: 50abc"])
  = Some (js "A1", js "B1", 50).
Proof. reflexivity. Qed.

Example parse_label_then_space :
  parse_qr_data (unlines [js "QR ID : A1"; js "Batch ID: B1";
                          js "Points: 50"]) = None.
Proof. reflexivity. Qed.

Example parseInt_samples :
  parseInt (js "50") = Some 50 /\ parseInt (js "-5") = Some (-5) /\
  parseInt (js "+7") = Some 7 /\ parseInt (js "12.5") = Some 12 /\
  parseInt (js "0x1F") = Some 31 /\ parseInt (js "-0X10") = Some (-16) /\
  parseInt (js "0x") = None /\ parseInt (js "abc") = None /\
  parseInt (js "") = None /\ parseInt (js "  42") = Some 42 /\
  parseInt10 (js "0x1F") = Some 0.
Proof. repeat split; reflexivity. Qed.

Example split_samples :
  split COLON (js "a:b:c") = [js "a"; js "b"; js "c"] /\
  split COLON (js "") = [js ""] /\
  split COLON (js "a:") = [js "a"; js ""] /\
  split LF (unlines [js "x"; js ""; js "y"]) = [js "x"; js ""; js "y"].
Proof. repeat split; reflexivity. Qed.

Example trim_samples :
  trim (js "  a b  ") = js "a b" /\ trim (js "   ") = js "" /\
  trim ([9; 160; 8232; 65279] ++ js "x" ++ [13; 10; 12288])%N = js "x".
Proof. repeat split; reflexivity. Qed.

Example scan_then_replay :
  (run (scan_qr (js "c1") Sample.payload) (Sample.store false true)).1
  = Success 50 80 (js "A1") (js "B1")
            (mkSummary (js "c1") (js "Ann") (js "ann") 80) /\
  (run (scan_qr (js "c1") Sample.payload) Sample.after_scan).1
  = AlreadyRedeemed /\
  (run (scan_qr (js "c1") (js "")) (Sample.store false true)).1
  = QRDataRequired /\
  (run (scan_qr (js "c1") (js "hello")) (Sample.store false true)).1
  = MalformedPayload.
Proof. repeat split; reflexivity. Qed.

Example adjust_samples :
  newPoints SUBTRACT 30 100 = 0 /\ newPoints SET 30 (-10) = 0 /\
  newPoints ADD 30 12 = 42 /\ newPoints (js "other") 30 9 = 9.
Proof. repeat split; reflexivity. Qed.

(** ** Lookups in the store *)

Section StoreLookups.

Implicit Types (db : Store) (b : QRBatch.t).

Lemma findActiveBatch_active db i b :
  unique_batch_ids db ->
  QRBatches db !! i = Some b ->
  QRBatch.isActive b = true ->
  findActiveBatch (QRBatch.batchId b) db = Some (i, b).
Proof.
  intros Huniq Hi Hact. apply list_find_Some. split_and!; [done..|].
  intros k b' Hk Hlt [Hid _].
  assert (k = i); [|lia].
  eapply NoDup_lookup; [exact Huniq| |].
  - rewrite list_lookup_fmap, Hk. simpl. by rewrite Hid.
  - by rewrite list_lookup_fmap, Hi.
Qed.

Lemma findActiveBatch_inactive db i b :
  unique_batch_ids db ->
  QRBatches db !! i = Some b ->
  QRBatch.isActive b = false ->
  findActiveBatch (QRBatch.batchId b) db = None.
Proof.
  intros Huniq Hi Hinact. apply list_find_None, Forall_lookup.
  intros k b' Hk [Hid Hact].
  assert (k = i) as ->.
  { eapply NoDup_lookup; [exact Huniq| |].
    - rewrite list_lookup_fmap, Hk. simpl. by rewrite Hid.
    - by rewrite list_lookup_fmap, Hi. }
  congruence.
Qed.

Lemma find_code_unique b j (c : QRItem.t) :
  unique_qr_ids b ->
  QRBatch.qrCodes b !! j = Some c ->
  list_find (fun qr => QRItem.qrId qr = QRItem.qrId c) (QRBatch.qrCodes b)
  = Some (j, c).
Proof.
  intros Huniq Hj. apply list_find_Some. split_and!; [done..|].
  intros k c' Hk Hlt Hid.
  assert (k = j); [|lia].
  eapply NoDup_lookup; [exact Huniq| |].
  - rewrite list_lookup_fmap, Hk. simpl. by rewrite Hid.
  - by rewrite list_lookup_fmap, Hj.
Qed.

(** Replacing a document by one with the same key does not move any key. *)
Lemma list_find_key_insert {A K} `{EqDecision K} (key : A -> K) (k : K)
    (l : list A) i x y :
  l !! i = Some x -> key y = key x ->
  list_find (fun a => key a = k) (<[i := y]> l)
  = (fun found => (found.1, if decide (found.1 = i) then y else found.2))
      <$> list_find (fun a => key a = k) l.
Proof.
  revert i. induction l as [|a l IH]; intros i Hi Hkey; [done|].
  destruct i as [|i]; simpl in *.
  - simplify_eq. rewrite Hkey. case_decide; [done|].
    by destruct (list_find _ l) as [[n z]|].
  - case_decide; [done|]. rewrite (IH i) by done.
    destruct (list_find _ l) as [[n z]|]; simpl; [|done].
    do 2 f_equal. repeat case_decide; (done || lia).
Qed.

Lemma incPoints_missing id inc db :
  balance id db = None -> incPoints id inc db = (None, db).
Proof.
  unfold balance, incPoints.
  destruct (list_find _ _) as [[i c]|]; [done|done].
Qed.

Lemma incPoints_found id inc db bal :
  balance id db = Some bal ->
  exists customer db',
    incPoints id inc db = (Some customer, db') /\
    Customer._id customer = id /\
    Customer.points customer = bal + inc /\
    QRBatches db' = QRBatches db /\
    balance id db' = Some (bal + inc) /\
    (forall id', id' <> id -> balance id' db' = balance id' db).
Proof.
  unfold balance, incPoints.
  destruct (list_find _ _) as [[i c]|] eqn:Hfind; [|done].
  intros [= <-]. apply list_find_Some in Hfind as Hfound.
  destruct Hfound as (Hi & Hid & _).
  eexists _, _. split_and!; try done; simpl.
  - rewrite (list_find_key_insert Customer._id id _ i c) by done.
    rewrite Hfind. simpl. by rewrite decide_True.
  - intros id' Hne.
    rewrite (list_find_key_insert Customer._id id' _ i c) by done.
    destruct (list_find (fun a => Customer._id a = id') _)
      as [[n z]|] eqn:Hfind'; [|done].
    simpl. case_decide; [|done]. subst n.
    apply list_find_Some in Hfind' as (Hn & Hid' & _). congruence.
Qed.

Lemma scanned_saveScanned doc j db i k :
  scanned i k (saveScanned doc j db)
  = if decide (i = doc /\ k = j) then (fun _ => true) <$> scanned i k db
    else scanned i k db.
Proof.
  unfold scanned, code_at, saveScanned. simpl.
  destruct (decide (i = doc)) as [->|Hne].
  - rewrite list_lookup_alter_eq.
    destruct (QRBatches db !! doc) as [b|]; simpl; [|by case_decide].
    destruct (decide (k = j)) as [->|Hne].
    + rewrite list_lookup_alter_eq, decide_True by done.
      by destruct (QRBatch.qrCodes b !! j).
    + rewrite list_lookup_alter_ne by done.
      rewrite decide_False; [done|]. by intros [_ ?].
  - rewrite list_lookup_alter_ne by done.
    rewrite decide_False; [done|]. by intros [? _].
Qed.

Lemma balance_saveScanned doc j db id :
  balance id (saveScanned doc j db) = balance id db.
Proof. done. Qed.

End StoreLookups.

(** ** Redemption, one request at a time *)

Section Redemption.

Variables (db : Store) (user_id qrData : jsstring).
Variables (qrId batchId : jsstring) (points : Z).
Hypothesis parsed : parse_qr_data qrData = Some (qrId, batchId, points).

Lemma parsed_nonempty : qrData <> [].
Proof. intros ->. by vm_compute in parsed. Qed.

(** The handler once the payload is read. *)
Lemma scan_qr_parsed :
  scan_qr user_id qrData
  = QRBatch_findOne batchId (fun found =>
      match found with
      | None => Respond BatchNotFound
      | Some (doc, qrBatch) =>
        match list_find (fun qr => QRItem.qrId qr = qrId)
                        (QRBatch.qrCodes qrBatch) with
        | None => Respond CodeNotFound
        | Some (j, qrCode) =>
          if QRItem.isScanned qrCode then Respond AlreadyRedeemed
          else
            Customer_findByIdAndUpdate user_id points (fun updated =>
            match updated with
            | None => Respond CustomerNotFound
            | Some customer =>
              QRBatch_save doc j
                (Respond (Success points (Customer.points customer)
                                  qrId batchId
                                  (mkSummary (Customer._id customer)
                                             (Customer.name customer)
                                             (Customer.username customer)
                                             (Customer.points customer))))
            end)
        end
      end).
Proof.
  unfold scan_qr. pose proof parsed_nonempty.
  destruct qrData; [done|]. by rewrite parsed.
Qed.

Section ActiveBatch.

Variables (i j : nat) (qrBatch : QRBatch.t) (qrCode : QRItem.t).
Hypothesis batch_ids : unique_batch_ids db.
Hypothesis batch_at : QRBatches db !! i = Some qrBatch.
Hypothesis batch_id : QRBatch.batchId qrBatch = batchId.
Hypothesis active : QRBatch.isActive qrBatch = true.
Hypothesis qr_ids : unique_qr_ids qrBatch.
Hypothesis code_in_batch : QRBatch.qrCodes qrBatch !! j = Some qrCode.
Hypothesis code_id : QRItem.qrId qrCode = qrId.

Lemma scanned_here : scanned i j db = Some (QRItem.isScanned qrCode).
Proof.
  unfold scanned, code_at. rewrite batch_at. simpl. by rewrite code_in_batch.
Qed.

Lemma run_scan_redeemed :
  QRItem.isScanned qrCode = true ->
  run (scan_qr user_id qrData) db = (AlreadyRedeemed, db).
Proof.
  intros Hscanned. rewrite scan_qr_parsed. simpl.
  rewrite <- batch_id, (findActiveBatch_active db i qrBatch) by done.
  rewrite batch_id, <- code_id, (find_code_unique qrBatch j qrCode) by done.
  by rewrite Hscanned.
Qed.

Lemma run_scan_no_customer :
  QRItem.isScanned qrCode = false ->
  balance user_id db = None ->
  run (scan_qr user_id qrData) db = (CustomerNotFound, db).
Proof.
  intros Hfresh Hnone. rewrite scan_qr_parsed. simpl.
  rewrite <- batch_id, (findActiveBatch_active db i qrBatch) by done.
  rewrite batch_id, <- code_id, (find_code_unique qrBatch j qrCode) by done.
  rewrite Hfresh. simpl. by rewrite incPoints_missing.
Qed.

Lemma run_scan_success bal :
  QRItem.isScanned qrCode = false ->
  balance user_id db = Some bal ->
  exists customer db1,
    incPoints user_id points db = (Some customer, db1) /\
    Customer._id customer = user_id /\
    Customer.points customer = bal + points /\
    run (scan_qr user_id qrData) db
    = (Success points (bal + points) qrId batchId
               (mkSummary user_id (Customer.name customer)
                          (Customer.username customer) (bal + points)),
       saveScanned i j db1) /\
    QRBatches db1 = QRBatches db /\
    balance user_id db1 = Some (bal + points) /\
    (forall id', id' <> user_id -> balance id' db1 = balance id' db).
Proof.
  intros Hfresh Hbal.
  destruct (incPoints_found user_id points db bal Hbal)
    as (customer & db1 & Hinc & Hid & Hpts & Hbatches & Hbal1 & Hframe).
  exists customer, db1. split_and!; try done.
  rewrite scan_qr_parsed. simpl.
  rewrite <- batch_id, (findActiveBatch_active db i qrBatch) by done.
  rewrite batch_id, <- code_id, (find_code_unique qrBatch j qrCode) by done.
  rewrite Hfresh. simpl. rewrite Hinc. simpl. by rewrite Hid, Hpts.
Qed.

End ActiveBatch.

End Redemption.

Lemma fmap_alter_key {A K} (key : A -> K) (f : A -> A) (i : nat) (l : list A) :
  (forall x, key (f x) = key x) -> key <$> alter f i l = key <$> l.
Proof.
  intros Hkey. apply list_eq. intros k.
  rewrite !list_lookup_fmap.
  destruct (decide (k = i)) as [->|Hne].
  - rewrite list_lookup_alter_eq. destruct (l !! i); simpl; [|done].
    by rewrite Hkey.
  - by rewrite list_lookup_alter_ne.
Qed.

Lemma unique_batch_ids_saveScanned doc j db :
  unique_batch_ids db -> unique_batch_ids (saveScanned doc j db).
Proof.
  unfold unique_batch_ids, saveScanned. simpl.
  by rewrite (fmap_alter_key QRBatch.batchId).
Qed.

Lemma replay_redeemed db user_id qrData qrId batchId points i j qrBatch qrCode n :
  parse_qr_data qrData = Some (qrId, batchId, points) ->
  unique_batch_ids db ->
  QRBatches db !! i = Some qrBatch ->
  QRBatch.batchId qrBatch = batchId ->
  QRBatch.isActive qrBatch = true ->
  unique_qr_ids qrBatch ->
  QRBatch.qrCodes qrBatch !! j = Some qrCode ->
  QRItem.qrId qrCode = qrId ->
  QRItem.isScanned qrCode = true ->
  replay n (scan_qr user_id qrData) db = (replicate n AlreadyRedeemed, db).
Proof.
  intros. induction n as [|n IH]; [done|]. simpl.
  erewrite run_scan_redeemed by done. by rewrite IH.
Qed.

(** C4.  A well-formed payload naming an unredeemed code of an active batch,
    scanned by an existing customer, succeeds: the response carries the
    payload's point value as points earned, the new balance, and the parsed
    [qrId] and [batchId]; the customer's balance grows by exactly the point
    value, the code becomes scanned, and no other balance or code changes.
    The balance, the point value and their sum are safe integers, which a
    double holds exactly. *)
Theorem scan_qr_success_postcondition
    db user_id qrData qrId batchId points i j qrBatch qrCode bal :
  parse_qr_data qrData = Some (qrId, batchId, points) ->
  unique_batch_ids db ->
  QRBatches db !! i = Some qrBatch ->
  QRBatch.batchId qrBatch = batchId ->
  QRBatch.isActive qrBatch = true ->
  unique_qr_ids qrBatch ->
  QRBatch.qrCodes qrBatch !! j = Some qrCode ->
  QRItem.qrId qrCode = qrId ->
  QRItem.isScanned qrCode = false ->
  balance user_id db = Some bal ->
  safe_integers [bal; points; bal + points] ->
  exists summary db',
    run (scan_qr user_id qrData) db
    = (Success points (bal + points) qrId batchId summary, db') /\
    summary_id summary = user_id /\
    summary_points summary = bal + points /\
    balance user_id db' = Some (bal + points) /\
    scanned i j db' = Some true /\
    (forall id', id' <> user_id -> balance id' db' = balance id' db) /\
    (forall i' j', (i', j') <> (i, j) -> scanned i' j' db' = scanned i' j' db).
Proof.
  intros Hparse Hids Hi Hid Hact Hqrs Hj Hqr Hfresh Hbal _.
  destruct (run_scan_success db user_id qrData qrId batchId points Hparse
              i j qrBatch qrCode Hids Hi Hid Hact Hqrs Hj Hqr bal Hfresh Hbal)
    as (customer & db1 & _ & _ & _ & Hrun & Hbatches & Hbal1 & Hframe).
  eexists _, _. split; [exact Hrun|]. split_and!; try done.
  - rewrite scanned_saveScanned, decide_True by done.
    unfold scanned, code_at. rewrite Hbatches, Hi. simpl. by rewrite Hj.
  - intros i' j' Hne. rewrite scanned_saveScanned, decide_False.
    + unfold scanned, code_at. by rewrite Hbatches.
    + intros [-> ->]. done.
Qed.

Lemma scan_qr_success_postcondition_witness :
  exists summary db',
    run (scan_qr (js "c1") Sample.payload) (Sample.store false true)
    = (Success 50 (30 + 50) (js "A1") (js "B1") summary, db') /\
    summary_id summary = js "c1" /\
    summary_points summary = 30 + 50 /\
    balance (js "c1") db' = Some (30 + 50) /\
    scanned 0 0 db' = Some true /\
    (forall id', id' <> js "c1" ->
       balance id' db' = balance id' (Sample.store false true)) /\
    (forall i' j', (i', j') <> (0, 0)%nat ->
       scanned i' j' db' = scanned i' j' (Sample.store false true)).
Proof.
  apply (scan_qr_success_postcondition (Sample.store false true) (js "c1")
           Sample.payload (js "A1") (js "B1") 50 0 0
           (Sample.batch false true) (Sample.code false) 30);
    try reflexivity; try apply NoDup_singleton.
  by repeat constructor.
Defined.

(** C1.  Redeeming is not idempotent: submitting the same well-formed
    payload again and again, one request after the other, succeeds the first
    time and is rejected as already redeemed every later time, and the
    customer's balance has grown by the point value exactly once.  The
    balance, the point value and their sum are safe integers, which a
    double holds exactly. *)
Theorem redeem_replay_credits_once
    db user_id qrData qrId batchId points i j qrBatch qrCode bal n :
  parse_qr_data qrData = Some (qrId, batchId, points) ->
  unique_batch_ids db ->
  QRBatches db !! i = Some qrBatch ->
  QRBatch.batchId qrBatch = batchId ->
  QRBatch.isActive qrBatch = true ->
  unique_qr_ids qrBatch ->
  QRBatch.qrCodes qrBatch !! j = Some qrCode ->
  QRItem.qrId qrCode = qrId ->
  QRItem.isScanned qrCode = false ->
  balance user_id db = Some bal ->
  safe_integers [bal; points; bal + points] ->
  exists summary db',
    replay (S n) (scan_qr user_id qrData) db
    = (Success points (bal + points) qrId batchId summary
         :: replicate n AlreadyRedeemed, db') /\
    balance user_id db' = Some (bal + points) /\
    scanned i j db' = Some true.
Proof.
  intros Hparse Hids Hi Hid Hact Hqrs Hj Hqr Hfresh Hbal _.
  destruct (run_scan_success db user_id qrData qrId batchId points Hparse
              i j qrBatch qrCode Hids Hi Hid Hact Hqrs Hj Hqr bal Hfresh Hbal)
    as (customer & db1 & _ & _ & _ & Hrun & Hbatches & Hbal1 & _).
  set (qrBatch' := QRBatch.mk (QRBatch.batchId qrBatch)
                     (alter markScanned j (QRBatch.qrCodes qrBatch))
                     (QRBatch.isActive qrBatch)).
  assert (QRBatches (saveScanned i j db1) !! i = Some qrBatch') as Hi'.
  { simpl. by rewrite list_lookup_alter_eq, Hbatches, Hi. }
  assert (unique_batch_ids (saveScanned i j db1)) as Hids'.
  { apply unique_batch_ids_saveScanned. unfold unique_batch_ids.
    by rewrite Hbatches. }
  assert (unique_qr_ids qrBatch') as Hqrs'.
  { unfold unique_qr_ids. simpl. by rewrite (fmap_alter_key QRItem.qrId). }
  assert (QRBatch.qrCodes qrBatch' !! j = Some (markScanned qrCode)) as Hj'.
  { simpl. by rewrite list_lookup_alter_eq, Hj. }
  eexists _, (saveScanned i j db1). simpl. rewrite Hrun.
  rewrite (replay_redeemed (saveScanned i j db1) user_id qrData qrId batchId
             points i j qrBatch' (markScanned qrCode) n) by done.
  split_and!; [done..|].
  rewrite scanned_saveScanned, decide_True by done.
  unfold scanned, code_at. rewrite Hbatches, Hi. simpl. by rewrite Hj.
Qed.

Lemma redeem_replay_credits_once_witness :
  exists summary db',
    replay 3 (scan_qr (js "c1") Sample.payload) (Sample.store false true)
    = (Success 50 (30 + 50) (js "A1") (js "B1") summary
         :: replicate 2 AlreadyRedeemed, db') /\
    balance (js "c1") db' = Some (30 + 50) /\
    scanned 0 0 db' = Some true.
Proof.
  apply (redeem_replay_credits_once (Sample.store false true) (js "c1")
           Sample.payload (js "A1") (js "B1") 50 0 0
           (Sample.batch false true) (Sample.code false) 30 2);
    try reflexivity; try apply NoDup_singleton.
  by repeat constructor.
Defined.

(** C3.  A rejected redemption leaves the store as it was: whenever the
    response is one of the rejections (missing or malformed payload, batch
    not found, code not found, already redeemed, customer not found), no
    balance and no [isScanned] flag has changed; and a request on behalf of
    a customer that does not exist is always rejected, so its code is not
    marked. *)
Theorem rejection_leaves_store db user_id qrData :
  (rejected (run (scan_qr user_id qrData) db).1 ->
     (run (scan_qr user_id qrData) db).2 = db) /\
  (balance user_id db = None ->
     rejected (run (scan_qr user_id qrData) db).1 /\
     (run (scan_qr user_id qrData) db).2 = db).
Proof.
  unfold scan_qr.
  destruct qrData as [|u qrData']; [done|].
  destruct (parse_qr_data (u :: qrData')) as [[[qrId batchId] points]|];
    [|done].
  simpl.
  destruct (findActiveBatch batchId db) as [[doc qrBatch]|]; [|done].
  destruct (list_find _ _) as [[j qrCode]|]; [|done].
  destruct (QRItem.isScanned qrCode); [done|]. simpl.
  split.
  - unfold incPoints.
    destruct (list_find _ (Customers db)) as [[k c]|]; simpl; done.
  - intros Hnone. by rewrite incPoints_missing.
Qed.

Lemma rejection_leaves_store_witness :
  rejected (run (scan_qr (js "c9") Sample.payload)
                (Sample.store false true)).1 /\
  (run (scan_qr (js "c9") Sample.payload) (Sample.store false true)).2
  = Sample.store false true.
Proof.
  destruct (rejection_leaves_store (Sample.store false true) (js "c9")
              Sample.payload) as [_ Hmissing].
  apply Hmissing. reflexivity.
Defined.

(** C6.  A redemption naming a batch whose [isActive] is false is answered
    "batch not found" and leaves the store as it was, whatever the codes of
    the batch and their [isScanned] flags are. *)
Theorem inactive_batch_not_redeemable
    db user_id qrData qrId batchId points i qrBatch :
  parse_qr_data qrData = Some (qrId, batchId, points) ->
  unique_batch_ids db ->
  QRBatches db !! i = Some qrBatch ->
  QRBatch.batchId qrBatch = batchId ->
  QRBatch.isActive qrBatch = false ->
  run (scan_qr user_id qrData) db = (BatchNotFound, db).
Proof.
  intros Hparse Hids Hi Hid Hinact.
  rewrite (scan_qr_parsed user_id qrData qrId batchId points Hparse). simpl.
  by rewrite <- Hid, (findActiveBatch_inactive db i qrBatch).
Qed.

Lemma inactive_batch_not_redeemable_witness :
  run (scan_qr (js "c1") Sample.payload) (Sample.store false false)
  = (BatchNotFound, Sample.store false false) /\
  run (scan_qr (js "c1") Sample.payload) (Sample.store true false)
  = (BatchNotFound, Sample.store true false).
Proof.
  split.
  - apply (inactive_batch_not_redeemable (Sample.store false false) (js "c1")
             Sample.payload (js "A1") (js "B1") 50 0
             (Sample.batch false false));
      try reflexivity; apply NoDup_singleton.
  - apply (inactive_batch_not_redeemable (Sample.store true false) (js "c1")
             Sample.payload (js "A1") (js "B1") 50 0
             (Sample.batch true false));
      try reflexivity; apply NoDup_singleton.
Defined.

(** ** The scanned flag only ever goes up *)

Section OneWay.

Variables i j : nat.

Lemma code_le_refl c : code_le c c.
Proof. by left. Qed.

Lemma code_le_trans c1 c2 c3 : code_le c1 c2 -> code_le c2 c3 -> code_le c1 c3.
Proof.
  intros [->|(qr & -> & Hfresh & ->)] [<-|(qr' & Heq & Hfresh' & ->)].
  - by left.
  - right. eauto.
  - right. eauto.
  - by simplify_eq.
Qed.

Lemma markScanned_scanned qr :
  QRItem.isScanned qr = true -> markScanned qr = qr.
Proof. destruct qr as [q u s]. simpl. by intros ->. Qed.

Lemma code_at_saveScanned doc k db :
  code_le (code_at i j db) (code_at i j (saveScanned doc k db)).
Proof.
  unfold code_at, saveScanned. simpl.
  destruct (decide (i = doc)) as [->|Hne];
    [|rewrite list_lookup_alter_ne by done; apply code_le_refl].
  rewrite list_lookup_alter_eq.
  destruct (QRBatches db !! doc) as [b|]; simpl; [|apply code_le_refl].
  destruct (decide (j = k)) as [->|Hne];
    [|rewrite list_lookup_alter_ne by done; apply code_le_refl].
  rewrite list_lookup_alter_eq.
  destruct (QRBatch.qrCodes b !! k) as [qr|]; simpl; [|apply code_le_refl].
  destruct (QRItem.isScanned qr) eqn:Hflag.
  - left. by rewrite markScanned_scanned.
  - right. eauto.
Qed.

Lemma QRBatches_incPoints id inc db :
  QRBatches (incPoints id inc db).2 = QRBatches db.
Proof. unfold incPoints. by destruct (list_find _ _) as [[k c]|]. Qed.

Lemma QRBatches_setPoints username n db :
  QRBatches (setPoints username n db).2 = QRBatches db.
Proof. unfold setPoints. by destruct (findByUsername _ _) as [[k c]|]. Qed.

(** One round trip of any handler. *)
Lemma step_code_le {R} (h : handler R) db :
  code_le (code_at i j db) (code_at i j (step h db).2).
Proof.
  destruct h as [r|b k|id inc k|doc n k|u k|u n k]; simpl;
    try apply code_le_refl.
  - pose proof (QRBatches_incPoints id inc db) as Heq.
    destruct (incPoints id inc db) as [c db']. simpl in *.
    unfold code_at. rewrite Heq. apply code_le_refl.
  - apply code_at_saveScanned.
  - pose proof (QRBatches_setPoints u n db) as Heq.
    destruct (setPoints u n db) as [c db']. simpl in *.
    unfold code_at. rewrite Heq. apply code_le_refl.
Qed.

(** A whole handler, whatever it is. *)
Lemma run_code_le {R} (h : handler R) db :
  code_le (code_at i j db) (code_at i j (run h db).2).
Proof.
  revert db.
  induction h as [r|b k IH|id inc k IH|doc n k IH|u k IH|u n k IH];
    intros db; simpl.
  - apply code_le_refl.
  - apply IH.
  - pose proof (QRBatches_incPoints id inc db) as Heq.
    destruct (incPoints id inc db) as [c db']. simpl in *.
    eapply code_le_trans; [|apply IH].
    unfold code_at. rewrite Heq. apply code_le_refl.
  - eapply code_le_trans; [apply code_at_saveScanned|apply IH].
  - apply IH.
  - pose proof (QRBatches_setPoints u n db) as Heq.
    destruct (setPoints u n db) as [c db']. simpl in *.
    eapply code_le_trans; [|apply IH].
    unfold code_at. rewrite Heq. apply code_le_refl.
Qed.

Lemma operation_step_code_le db db' :
  operation_step db db' -> code_le (code_at i j db) (code_at i j db').
Proof.
  intros [user_id qrData db0|username body db0|customers' db0].
  - apply run_code_le.
  - apply run_code_le.
  - apply code_le_refl.
Qed.

(** Requests in flight together: any schedule. *)
Lemma interleave_code_le {R} schedule (pool : list (handler R)) db :
  code_le (code_at i j db) (code_at i j (interleave schedule (pool, db)).2).
Proof.
  revert pool db. induction schedule as [|t schedule IH]; intros pool db.
  - apply code_le_refl.
  - unfold interleave. simpl. unfold pool_step at 2. simpl.
    destruct (pool !! t) as [h|]; [|apply IH].
    pose proof (step_code_le h db) as Hstep.
    destruct (step h db) as [h' db']. simpl in *.
    eapply code_le_trans; [exact Hstep|apply IH].
Qed.

Lemma code_le_flag c c' :
  code_le c c' ->
  QRItem.isScanned <$> c = QRItem.isScanned <$> c' \/
  (QRItem.isScanned <$> c = Some false /\ QRItem.isScanned <$> c' = Some true).
Proof.
  intros [->|(qr & -> & Hfresh & ->)]; [by left|].
  right. simpl. by rewrite Hfresh.
Qed.

Lemma history_changes dbs :
  history dbs ->
  changes (scanned i j <$> dbs) = [] \/
  (head (scanned i j <$> dbs) = Some (Some false) /\
   changes (scanned i j <$> dbs) = [(Some false, Some true)]).
Proof.
  induction 1 as [db|db db' dbs Hstep Hhist IH]; [by left|].
  apply operation_step_code_le, code_le_flag in Hstep.
  rewrite !fmap_cons in *.
  change (QRItem.isScanned <$> code_at i j db) with (scanned i j db) in Hstep.
  change (QRItem.isScanned <$> code_at i j db') with (scanned i j db') in Hstep.
  generalize dependent (scanned i j <$> dbs).
  generalize dependent (scanned i j db').
  generalize dependent (scanned i j db).
  intros x y Hstep rest IH. cbn [changes head] in *.
  destruct Hstep as [->|[-> ->]].
  - rewrite decide_True by done.
    destruct IH as [IH|[Hhead IH]]; [by left|by right].
  - rewrite decide_False by done.
    destruct IH as [IH|[Hhead IH]]; [|done].
    right. by rewrite IH.
Qed.

End OneWay.

Lemma history_code_le i j dbs :
  history dbs ->
  forall k k' db db',
    (k <= k')%nat -> dbs !! k = Some db -> dbs !! k' = Some db' ->
    code_le (code_at i j db) (code_at i j db').
Proof.
  induction 1 as [db0|db0 db1 dbs Hstep Hhist IH]; intros k k' db db' Hle Hk Hk'.
  - destruct k, k'; simplify_eq/=. apply code_le_refl.
  - destruct k as [|k], k' as [|k']; simplify_eq/=.
    + apply code_le_refl.
    + eapply code_le_trans; [by apply operation_step_code_le|].
      apply (IH 0%nat k'); [lia|done..].
    + lia.
    + apply (IH k k'); [lia|done..].
Qed.

(** C5.  Along every sequence of operations of the system, the [isScanned]
    flag of every code entry changes at most once, and the only change is
    from false to true: once a code is scanned it is scanned in every later
    store, and the entry at a position keeps its [qrId]. *)
Theorem isScanned_one_way dbs i j :
  history dbs ->
  (changes (scanned i j <$> dbs) = [] \/
   changes (scanned i j <$> dbs) = [(Some false, Some true)]) /\
  (forall k k' db db',
     (k <= k')%nat -> dbs !! k = Some db -> dbs !! k' = Some db' ->
     (scanned i j db = Some true -> scanned i j db' = Some true) /\
     QRItem.qrId <$> code_at i j db' = QRItem.qrId <$> code_at i j db).
Proof.
  intros Hhist. split.
  - destruct (history_changes i j dbs Hhist) as [?|[_ ?]]; auto.
  - intros k k' db db' Hle Hk Hk'.
    destruct (history_code_le i j dbs Hhist k k' db db' Hle Hk Hk')
      as [Heq|(qr & Hold & Hfresh & Hnew)]; unfold scanned.
    + by rewrite Heq.
    + rewrite Hold, Hnew. simpl. split; [congruence|done].
Qed.

Lemma isScanned_one_way_witness :
  scanned 0 0 <$> Sample.stores
  = [Some false; Some true; Some true; Some true] /\
  (changes (scanned 0 0 <$> Sample.stores) = [] \/
   changes (scanned 0 0 <$> Sample.stores) = [(Some false, Some true)]).
Proof.
  split; [reflexivity|].
  apply (isScanned_one_way Sample.stores 0 0).
  repeat (apply history_cons; [|]); try apply history_one.
  - apply scan_step.
  - apply scan_step.
  - apply points_step.
Defined.

(** ** Requests in flight together *)

(** Two requests for one unredeemed code whose round trips alternate both
    read the code as unscanned, and both credit the customer. *)
Lemma alternating_pair_credits_twice
    db user_id qrData qrId batchId points i j qrBatch qrCode bal :
  parse_qr_data qrData = Some (qrId, batchId, points) ->
  unique_batch_ids db ->
  QRBatches db !! i = Some qrBatch ->
  QRBatch.batchId qrBatch = batchId ->
  QRBatch.isActive qrBatch = true ->
  unique_qr_ids qrBatch ->
  QRBatch.qrCodes qrBatch !! j = Some qrCode ->
  QRItem.qrId qrCode = qrId ->
  QRItem.isScanned qrCode = false ->
  balance user_id db = Some bal ->
  exists s1 s2 db',
    interleave [0; 1; 0; 1; 0; 1]%nat
      ([scan_qr user_id qrData; scan_qr user_id qrData], db)
    = ([Respond (Success points (bal + points) qrId batchId s1);
        Respond (Success points (bal + points + points) qrId batchId s2)],
       db') /\
    balance user_id db' = Some (bal + points + points).
Proof.
  intros Hparse Hids Hi Hid Hact Hqrs Hj Hqr Hfresh Hbal.
  destruct (incPoints_found user_id points db bal Hbal)
    as (c1 & db1 & Hinc1 & Hid1 & Hpts1 & Hbatches1 & Hbal1 & _).
  destruct (incPoints_found user_id points db1 (bal + points) Hbal1)
    as (c2 & db2 & Hinc2 & Hid2 & Hpts2 & Hbatches2 & Hbal2 & _).
  rewrite (scan_qr_parsed user_id qrData qrId batchId points Hparse).
  unfold interleave, pool_step. cbn -[saveScanned].
  rewrite <- Hid, (findActiveBatch_active db i qrBatch) by done.
  rewrite Hid, <- Hqr, (find_code_unique qrBatch j qrCode) by done.
  rewrite Hfresh. cbn -[saveScanned]. rewrite Hinc1. cbn -[saveScanned].
  rewrite Hinc2. cbn -[saveScanned].
  rewrite Hpts1, Hpts2. eexists _, _, _. split; [reflexivity|].
  by rewrite !balance_saveScanned.
Qed.

(** Three round trips bring a redemption to its response, with the same
    outcome as [run]. *)
Lemma scan_qr_three_steps user_id qrData db :
  let s1 := step (scan_qr user_id qrData) db in
  let s2 := step s1.1 s1.2 in
  step s2.1 s2.2
  = (Respond (run (scan_qr user_id qrData) db).1,
     (run (scan_qr user_id qrData) db).2).
Proof.
  unfold scan_qr.
  destruct qrData as [|u qrData']; [done|].
  destruct (parse_qr_data (u :: qrData')) as [[[qrId batchId] points]|];
    [|done].
  simpl.
  destruct (findActiveBatch batchId db) as [[doc qrBatch]|]; [|done].
  destruct (list_find _ _) as [[j qrCode]|]; [|done].
  destruct (QRItem.isScanned qrCode); [done|]. simpl.
  by destruct (incPoints user_id points db) as [[customer|] db1].
Qed.

Lemma pool_step_at {R} (pool : list (handler R)) t h db :
  pool !! t = Some h ->
  pool_step t (pool, db) = (<[t := (step h db).1]> pool, (step h db).2).
Proof.
  intros Ht. unfold pool_step. simpl. rewrite Ht.
  by destruct (step h db).
Qed.

Lemma interleave_app {R} s1 s2 (st : list (handler R) * Store) :
  interleave (s1 ++ s2) st = interleave s2 (interleave s1 st).
Proof. apply fold_left_app. Qed.

Lemma interleave_redemption pool t user_id qrData db :
  pool !! t = Some (scan_qr user_id qrData) ->
  interleave [t; t; t] (pool, db)
  = (<[t := Respond (run (scan_qr user_id qrData) db).1]> pool,
     (run (scan_qr user_id qrData) db).2).
Proof.
  intros Ht. pose proof (lookup_lt_Some _ _ _ Ht) as Hlt.
  pose proof (scan_qr_three_steps user_id qrData db) as Hsteps.
  simpl in Hsteps. unfold interleave. simpl.
  rewrite (pool_step_at pool t _ db Ht).
  destruct (step (scan_qr user_id qrData) db) as [h1 db1]. simpl in *.
  rewrite (pool_step_at _ t h1 db1) by (apply list_lookup_insert_eq; done).
  rewrite list_insert_insert_eq.
  destruct (step h1 db1) as [h2 db2]. simpl in *.
  rewrite (pool_step_at _ t h2 db2) by (apply list_lookup_insert_eq; done).
  by rewrite list_insert_insert_eq, Hsteps.
Qed.

(** Requests that do not overlap are requests served one after the other. *)
Lemma interleave_serial requests served db :
  interleave (serial_from (length served) (length requests))
             (served ++ redemptions requests, db)
  = (served ++ (Respond <$> (serve (redemptions requests) db).1),
     (serve (redemptions requests) db).2).
Proof.
  revert served db.
  induction requests as [|[user_id qrData] requests IH]; intros served db.
  { done. }
  unfold serial_from. simpl flat_map.
  change (?a :: ?b :: ?c :: ?l) with ([a; b; c] ++ l).
  rewrite interleave_app. simpl redemptions.
  rewrite (interleave_redemption _ _ user_id qrData)
    by (by rewrite list_lookup_middle).
  rewrite insert_app_r_alt, Nat.sub_diag by lia. simpl.
  destruct (run (scan_qr user_id qrData) db) as [r db1]. simpl.
  specialize (IH (served ++ [Respond r]) db1).
  rewrite length_app, Nat.add_1_r, <- app_assoc in IH. simpl in IH.
  unfold serial_from in IH. fold (redemptions requests). rewrite IH.
  destruct (serve (redemptions requests) db1) as [rs db2]. simpl.
  by rewrite <- app_assoc.
Qed.

Lemma serve_redeemed db requests qrId batchId i j qrBatch qrCode :
  Forall (fun request =>
            exists points,
              parse_qr_data request.2 = Some (qrId, batchId, points))
         requests ->
  unique_batch_ids db ->
  QRBatches db !! i = Some qrBatch ->
  QRBatch.batchId qrBatch = batchId ->
  QRBatch.isActive qrBatch = true ->
  unique_qr_ids qrBatch ->
  QRBatch.qrCodes qrBatch !! j = Some qrCode ->
  QRItem.qrId qrCode = qrId ->
  QRItem.isScanned qrCode = true ->
  serve (redemptions requests) db
  = (replicate (length requests) AlreadyRedeemed, db).
Proof.
  intros Hall. induction Hall as [|[user_id qrData] requests [points Hp] _ IH];
    intros; [done|]. simpl.
  erewrite run_scan_redeemed by done. fold (redemptions requests).
  by rewrite IH.
Qed.

(** Two redemption attempts for the same code whose round trips alternate
    both succeed, and the balance grows by twice the point value. *)
Lemma concurrent_redeem_double_credit :
  exists s1 s2 db',
    interleave Sample.alternating
      (Sample.two_requests, Sample.store false true)
    = ([Respond (Success 50 80 (js "A1") (js "B1") s1);
        Respond (Success 50 130 (js "A1") (js "B1") s2)], db') /\
    balance (js "c1") (Sample.store false true) = Some 30 /\
    balance (js "c1") db' = Some 130.
Proof. eexists _, _, _. split_and!; reflexivity. Qed.

(** C2.  Redemption attempts for the same code that do not overlap, each
    having its store round trips before the next begins, the first of them
    made by an existing customer, end in exactly one success, the first,
    and "already redeemed" for all the others, and the balance of the first
    caller grows by its point value once.  The handler reads, checks,
    credits and marks in separate round trips: after two of them the
    customer is credited and the code is not yet marked.  The balance of
    the first caller, its point value and their sum are safe integers,
    which a double holds exactly. *)
Theorem serial_redeem_one_success
    db requests user_id qrData others qrId batchId points
    i j qrBatch qrCode bal :
  requests = (user_id, qrData) :: others ->
  parse_qr_data qrData = Some (qrId, batchId, points) ->
  Forall (fun request =>
            exists points',
              parse_qr_data request.2 = Some (qrId, batchId, points'))
         others ->
  unique_batch_ids db ->
  QRBatches db !! i = Some qrBatch ->
  QRBatch.batchId qrBatch = batchId ->
  QRBatch.isActive qrBatch = true ->
  unique_qr_ids qrBatch ->
  QRBatch.qrCodes qrBatch !! j = Some qrCode ->
  QRItem.qrId qrCode = qrId ->
  QRItem.isScanned qrCode = false ->
  balance user_id db = Some bal ->
  safe_integers [bal; points; bal + points] ->
  (exists summary db',
     interleave (serial (length requests)) (redemptions requests, db)
     = (Respond <$> Success points (bal + points) qrId batchId summary
                      :: replicate (length others) AlreadyRedeemed, db') /\
     balance user_id db' = Some (bal + points) /\
     scanned i j db' = Some true) /\
  (exists pending db1,
     interleave [0; 0]%nat ([scan_qr user_id qrData], db) = ([pending], db1) /\
     response pending = None /\
     balance user_id db1 = Some (bal + points) /\
     scanned i j db1 = Some false).
Proof.
  intros -> Hparse Hothers Hids Hi Hid Hact Hqrs Hj Hqr Hfresh Hbal _.
  destruct (run_scan_success db user_id qrData qrId batchId points Hparse
              i j qrBatch qrCode Hids Hi Hid Hact Hqrs Hj Hqr bal Hfresh Hbal)
    as (customer & db1 & Hinc & Hcid & Hpts & Hrun & Hbatches & Hbal1 & _).
  split.
  - set (qrBatch' := QRBatch.mk (QRBatch.batchId qrBatch)
                       (alter markScanned j (QRBatch.qrCodes qrBatch))
                       (QRBatch.isActive qrBatch)).
    assert (QRBatches (saveScanned i j db1) !! i = Some qrBatch') as Hi'.
    { simpl. by rewrite list_lookup_alter_eq, Hbatches, Hi. }
    assert (unique_batch_ids (saveScanned i j db1)) as Hids'.
    { apply unique_batch_ids_saveScanned. unfold unique_batch_ids.
      by rewrite Hbatches. }
    assert (unique_qr_ids qrBatch') as Hqrs'.
    { unfold unique_qr_ids. simpl. by rewrite (fmap_alter_key QRItem.qrId). }
    assert (QRBatch.qrCodes qrBatch' !! j = Some (markScanned qrCode)) as Hj'.
    { simpl. by rewrite list_lookup_alter_eq, Hj. }
    eexists _, (saveScanned i j db1).
    change (interleave (serial (length ((user_id, qrData) :: others)))
              (redemptions ((user_id, qrData) :: others), db))
      with (interleave
              (serial_from (length (@nil (handler ScanResponse)))
                           (length ((user_id, qrData) :: others)))
              ([] ++ redemptions ((user_id, qrData) :: others), db)).
    rewrite interleave_serial. simpl. rewrite Hrun. fold (redemptions others).
    rewrite (serve_redeemed (saveScanned i j db1) others qrId batchId i j
               qrBatch' (markScanned qrCode)) by done.
    split_and!; [done..|].
    rewrite scanned_saveScanned, decide_True by done.
    unfold scanned, code_at. rewrite Hbatches, Hi. simpl. by rewrite Hj.
  - assert (exists k,
              interleave [0; 0]%nat ([scan_qr user_id qrData], db)
              = ([QRBatch_save i j k], db1)) as [k Hk].
    { eexists.
      rewrite (scan_qr_parsed user_id qrData qrId batchId points Hparse).
      unfold interleave, pool_step. cbn.
      rewrite <- Hid, (findActiveBatch_active db i qrBatch) by done. cbn.
      rewrite Hid, <- Hqr, (find_code_unique qrBatch j qrCode) by done. cbn.
      rewrite Hfresh. cbn. rewrite Hinc. reflexivity. }
    exists (QRBatch_save i j k), db1. split_and!; [done..|].
    unfold scanned, code_at. rewrite Hbatches, Hi. simpl.
    rewrite Hj. simpl. by rewrite Hfresh.
Qed.

Lemma serial_redeem_one_success_witness :
  (exists summary db',
     interleave (serial 3)
       (redemptions [(js "c1", Sample.payload); (js "c1", Sample.payload);
                     (js "c2", Sample.payload)],
        Sample.store false true)
     = (Respond <$> Success 50 (30 + 50) (js "A1") (js "B1") summary
                      :: replicate 2 AlreadyRedeemed, db') /\
     balance (js "c1") db' = Some (30 + 50) /\
     scanned 0 0 db' = Some true) /\
  (exists pending db1,
     interleave [0; 0]%nat
       ([scan_qr (js "c1") Sample.payload], Sample.store false true)
     = ([pending], db1) /\
     response pending = None /\
     balance (js "c1") db1 = Some (30 + 50) /\
     scanned 0 0 db1 = Some false).
Proof.
  apply (serial_redeem_one_success (Sample.store false true)
           [(js "c1", Sample.payload); (js "c1", Sample.payload);
            (js "c2", Sample.payload)]
           (js "c1") Sample.payload
           [(js "c1", Sample.payload); (js "c2", Sample.payload)]
           (js "A1") (js "B1") 50 0 0
           (Sample.batch false true) (Sample.code false) 30);
    try reflexivity; try apply NoDup_singleton.
  - repeat constructor; by exists 50.
  - by repeat constructor.
Defined.

(** ** Administrative point adjustment *)

Lemma newPoints_add balance points :
  newPoints ADD balance points = balance + points.
Proof. done. Qed.

Lemma newPoints_subtract balance points :
  newPoints SUBTRACT balance points = Z.max 0 (balance - points).
Proof. done. Qed.

Lemma newPoints_default operation balance points :
  operation <> ADD -> operation <> SUBTRACT ->
  newPoints operation balance points = Z.max 0 points.
Proof. intros. unfold newPoints. by rewrite !decide_False. Qed.

(** Every mode but [add] has a floor of zero. *)
Lemma newPoints_floor operation balance points :
  operation <> ADD -> 0 <= newPoints operation balance points.
Proof.
  intros Hop. unfold newPoints. rewrite decide_False by done.
  case_decide; lia.
Qed.

(** C9.  With a balance of 30, the adjustment in mode [add] with points
    [-100] computes and stores the balance [-70]: the [add] branch has no
    floor, unlike [subtract] and [set]. *)
Theorem add_below_zero_not_clamped :
  newPoints ADD 30 (-100) = -70 /\
  balance (js "c1") (Sample.store false true) = Some 30 /\
  (run (update_points (js "ann") (mkBody (Some (-100)) (Some ADD)))
       (Sample.store false true)).1
  = Updated 30 (Some (-70)) ADD /\
  balance (js "c1")
    (run (update_points (js "ann") (mkBody (Some (-100)) (Some ADD)))
         (Sample.store false true)).2
  = Some (-70) /\
  newPoints SUBTRACT 30 100 = 0 /\
  newPoints SET 30 (-10) = 0.
Proof. split_and!; reflexivity. Qed.

(** ** JavaScript string primitives *)

Section Strings.

Implicit Types (s t w p : jsstring) (c : N).

Lemma trimStart_white w s : white w -> trimStart (w ++ s) = trimStart s.
Proof.
  induction 1 as [|c w Hc Hw IH]; [done|]. simpl. by rewrite Hc.
Qed.

Lemma trimStart_stop c s : is_white_space c = false -> trimStart (c :: s) = c :: s.
Proof. intros Hc. simpl. by rewrite Hc. Qed.

Lemma trimStart_split s : exists w, white w /\ s = w ++ trimStart s.
Proof.
  induction s as [|c s (w & Hw & IH)];
    [exists []; split; [constructor|done]|]. simpl.
  destruct (is_white_space c) eqn:Hc.
  - exists (c :: w). split; [by constructor|]. simpl. by rewrite <- IH.
  - exists []. split; [constructor|done].
Qed.

Lemma trimStart_app_stop s c t :
  is_white_space c = false -> trimStart (s ++ c :: t) = trimStart s ++ c :: t.
Proof.
  intros Hc. induction s as [|a s IH]; simpl.
  - by rewrite Hc.
  - by destruct (is_white_space a).
Qed.

Lemma trimEnd_split s : exists w, white w /\ s = trimEnd s ++ w.
Proof.
  unfold trimEnd. destruct (trimStart_split (rev s)) as (w & Hw & Heq).
  exists (rev w). split.
  - by apply Forall_rev.
  - rewrite <- rev_app_distr, <- Heq. by rewrite rev_involutive.
Qed.

Lemma trimEnd_app_stop s c t :
  is_white_space c = false -> trimEnd (s ++ c :: t) = s ++ c :: trimEnd t.
Proof.
  intros Hc. unfold trimEnd.
  rewrite rev_app_distr. simpl. rewrite <- app_assoc. simpl.
  rewrite trimStart_app_stop by done.
  rewrite rev_app_distr. simpl. by rewrite rev_involutive, <- app_assoc.
Qed.

Lemma trimEnd_white s w : white w -> trimEnd (s ++ w) = trimEnd s.
Proof.
  intros Hw. unfold trimEnd. rewrite rev_app_distr.
  rewrite trimStart_white; [done|]. by apply Forall_rev.
Qed.

Lemma trimEnd_nil : trimEnd [] = [].
Proof. done. Qed.

Lemma trimEnd_all_white w : white w -> trimEnd w = [].
Proof. intros Hw. by rewrite <- (app_nil_l w), trimEnd_white. Qed.

Lemma startsWith_prefix s p : startsWith s p = true <-> exists t, s = p ++ t.
Proof.
  revert s. induction p as [|a p IH]; intros s; simpl.
  - split; [by exists s|done].
  - destruct s as [|c s]; [split; [done|by intros [t ?]]|].
    rewrite andb_true_iff, N.eqb_eq, IH. split.
    + intros [-> [t ->]]. by exists t.
    + intros [t [= -> ->]]. eauto.
Qed.

Lemma split_no_sep sep s : sep ∉ s -> split sep s = [s].
Proof.
  induction s as [|c s IH]; [done|]. intros Hnot.
  apply not_elem_of_cons in Hnot as [Hne Hnot]. simpl.
  destruct (N.eqb_spec c sep); [congruence|]. by rewrite IH.
Qed.

Lemma split_at_sep sep s t :
  sep ∉ s -> split sep (s ++ sep :: t) = s :: split sep t.
Proof.
  induction s as [|c s IH]; intros Hnot; simpl.
  - by rewrite N.eqb_refl.
  - apply not_elem_of_cons in Hnot as [Hne Hnot].
    destruct (N.eqb_spec c sep); [congruence|]. by rewrite IH.
Qed.



End Strings.

(** ** Lines and labels *)

Section Labels.

Implicit Types (s t w line label : jsstring) (lines : list jsstring).

Lemma white_no_colon w : white w -> COLON ∉ w.
Proof.
  intros Hw Hin%list_elem_of_In. unfold white in Hw.
  rewrite List.Forall_forall in Hw. by apply Hw in Hin.
Qed.

Lemma trimStart_all_white w : white w -> trimStart w = [].
Proof. intros Hw. by rewrite <- (app_nil_r w), trimStart_white. Qed.

Lemma white_app w w' : white w -> white w' -> white (w ++ w').
Proof. apply Forall_app_2. Qed.

(** Padding with white space does not change what [trim] returns. *)
Lemma trim_pad w s w' : white w -> white w' -> trim (w ++ s ++ w') = trim s.
Proof.
  intros Hw Hw'. unfold trim. rewrite trimStart_white by done.
  destruct (trimStart_split s) as (w0 & Hw0 & Hs).
  destruct (trimStart s) as [|c t] eqn:Hstart.
  - rewrite app_nil_r in Hs. subst w0.
    rewrite trimStart_all_white by by apply white_app. done.
  - assert (is_white_space c = false) as Hc.
    { destruct s as [|a s']; [done|].
      clear Hs. revert Hstart. generalize (a :: s'). intros l.
      induction l as [|b l IH]; [done|]. simpl.
      destruct (is_white_space b) eqn:Hb; [done|]. by intros [= <- _]. }
    rewrite Hs at 1. rewrite <- app_assoc, trimStart_white by done.
    simpl. rewrite Hc. by rewrite app_comm_cons, trimEnd_white.
Qed.

(** Shape of a label: a name that starts with a visible character and holds
    no colon, then the colon. *)
Lemma label_shape label :
  is_label label ->
  exists c name, label = (c :: name) ++ [COLON] /\
                 is_white_space c = false /\ COLON ∉ c :: name.
Proof.
  intros [-> | [-> | ->]];
    [exists 81%N, (js "R ID")|exists 66%N, (js "atch ID")
    |exists 80%N, (js "oints")];
    (split; [reflexivity|]); (split; [reflexivity|]);
    by apply (bool_decide_unpack _).
Qed.

(** A line carries a label exactly when, after leading white space, it
    starts with the very code units of the label. *)
Lemma label_line_prefix label line :
  is_label label ->
  label_line label line = true
  <-> exists w tail, white w /\ line = w ++ label ++ tail.
Proof.
  intros Hlabel. unfold label_line. rewrite startsWith_prefix. split.
  - intros [t Htrim]. unfold trim in Htrim.
    destruct (trimStart_split line) as (w & Hw & Hline).
    destruct (trimEnd_split (trimStart line)) as (w' & Hw' & Hstart).
    exists w, (t ++ w'). split; [done|].
    rewrite Hline at 1. rewrite Hstart at 1. by rewrite Htrim, <- app_assoc.
  - intros (w & tail & Hw & ->).
    destruct (label_shape label Hlabel) as (c & name & -> & Hc & _).
    exists (trimEnd tail). unfold trim.
    rewrite trimStart_white by done. simpl. rewrite Hc.
    rewrite <- app_assoc. simpl. rewrite app_comm_cons.
    rewrite trimEnd_app_stop by done. by rewrite <- app_assoc.
Qed.

Lemma split_first sep s : exists piece pieces, split sep s = piece :: pieces.
Proof.
  destruct s as [|c s]; simpl; [eauto|].
  destruct (c =? sep)%N; [eauto|]. destruct (split sep s); eauto.
Qed.

(** On a line that carries a label, [split(':')[1]] is what lies between
    the colon of the label and the next colon, or the end of the line. *)
Lemma second_piece_label label w tail :
  is_label label -> white w ->
  second_piece (w ++ label ++ tail) = split COLON tail !! 0%nat.
Proof.
  intros Hlabel Hw.
  destruct (label_shape label Hlabel) as (c & name & -> & _ & Hname).
  unfold second_piece. rewrite <- app_assoc. simpl.
  change (w ++ c :: name ++ COLON :: tail)
    with (w ++ (c :: name) ++ COLON :: tail).
  rewrite app_assoc, split_at_sep; [done|].
  apply not_elem_of_app. split; [by apply white_no_colon|done].
Qed.

Lemma second_piece_cut label w value rest :
  is_label label -> white w -> COLON ∉ value ->
  second_piece (w ++ label ++ value ++ COLON :: rest) = Some value.
Proof.
  intros. rewrite second_piece_label by done. by rewrite split_at_sep.
Qed.


Lemma second_piece_is_Some label line :
  is_label label -> label_line label line = true ->
  exists piece, second_piece line = Some piece.
Proof.
  intros Hlabel (w & tail & Hw & ->)%label_line_prefix; [|done].
  rewrite second_piece_label by done.
  destruct (split_first COLON tail) as (piece & pieces & ->). eauto.
Qed.

Lemma find_first (f : jsstring -> bool) lines line :
  List.find f lines = Some line
  <-> exists before after,
        lines = before ++ line :: after /\ f line = true /\
        Forall (fun l => f l = false) before.
Proof.
  induction lines as [|l lines IH]; simpl.
  - split; [done|]. intros (before & after & Heq & _). by destruct before.
  - destruct (f l) eqn:Hl.
    + split.
      * intros [= ->]. exists [], lines. by repeat split.
      * intros (before & after & Heq & Hline & Hbefore).
        destruct before as [|b before]; simplify_eq/=; [done|].
        inversion Hbefore; congruence.
    + rewrite IH. split.
      * intros (before & after & -> & Hline & Hbefore).
        exists (l :: before), after. repeat split; [done|by constructor].
      * intros (before & after & Heq & Hline & Hbefore).
        destruct before as [|b before]; simplify_eq/=; [congruence|].
        inversion Hbefore; subst. eauto.
Qed.

Lemma find_label_first label lines line :
  List.find (label_line label) lines = Some line
  <-> first_line label lines line.
Proof. apply find_first. Qed.

Lemma find_label_absent label qrData :
  List.find (label_line label) (split LF qrData) = None <-> absent label qrData.
Proof.
  unfold absent. generalize (split LF qrData). intros lines.
  induction lines as [|l lines IH]; simpl.
  - split; [constructor|done].
  - destruct (label_line label l) eqn:Hl.
    + split; [done|]. inversion 1; congruence.
    + rewrite IH. split; [by constructor|by inversion 1].
Qed.

Lemma label_line_nonempty label line :
  is_label label -> label_line label line = true -> falsy (Some line) = false.
Proof.
  intros Hlabel Hline. destruct line as [|c line]; [|done].
  by destruct Hlabel as [-> | [-> | ->]].
Qed.


End Labels.

(** ** The payload parser *)

Section Parser.

Variable qrData : jsstring.

Lemma parse_qr_data_absent label :
  is_label label -> absent label qrData -> parse_qr_data qrData = None.
Proof.
  intros Hlabel Habsent%find_label_absent. unfold parse_qr_data.
  destruct Hlabel as [-> | [-> | ->]]; rewrite Habsent; simpl;
    by rewrite ?orb_true_r.
Qed.

(** The parser once its three lines are found. *)
Lemma parse_qr_data_found lq lb lp :
  List.find (label_line QR_ID) (split LF qrData) = Some lq ->
  List.find (label_line BATCH_ID) (split LF qrData) = Some lb ->
  List.find (label_line POINTS) (split LF qrData) = Some lp ->
  exists q b p,
    second_piece lq = Some q /\ second_piece lb = Some b /\
    second_piece lp = Some p /\
    points_field qrData = Some (trim p) /\
    parse_qr_data qrData
    = match parseInt (trim p) with
      | None => None
      | Some points =>
          if points <=? 0 then None else Some (trim q, trim b, points)
      end.
Proof.
  intros Hq Hb Hp.
  assert (is_label QR_ID) as Lq by (by left).
  assert (is_label BATCH_ID) as Lb by (right; by left).
  assert (is_label POINTS) as Lp by (right; by right).
  pose proof (find_some _ _ Hq) as [_ Mq].
  pose proof (find_some _ _ Hb) as [_ Mb].
  pose proof (find_some _ _ Hp) as [_ Mp].
  destruct (second_piece_is_Some QR_ID lq Lq Mq) as [q Sq].
  destruct (second_piece_is_Some BATCH_ID lb Lb Mb) as [b Sb].
  destruct (second_piece_is_Some POINTS lp Lp Mp) as [p Sp].
  exists q, b, p. split_and!; try done.
  - unfold points_field. rewrite Hp. simpl. by rewrite Sp.
  - unfold parse_qr_data. rewrite Hq, Hb, Hp.
    rewrite (label_line_nonempty QR_ID lq), (label_line_nonempty BATCH_ID lb),
      (label_line_nonempty POINTS lp) by done.
    simpl. by rewrite Sq, Sb, Sp.
Qed.

Lemma parse_qr_data_malformed : parse_qr_data qrData = None <-> malformed qrData.
Proof.
  unfold malformed. rewrite <- !find_label_absent.
  destruct (List.find (label_line QR_ID) (split LF qrData)) as [lq|] eqn:Hq;
    [|split; [by left|intros _; apply (parse_qr_data_absent QR_ID);
                       [by left|by apply find_label_absent]]].
  destruct (List.find (label_line BATCH_ID) (split LF qrData)) as [lb|] eqn:Hb;
    [|split; [by right; left
             |intros _; apply (parse_qr_data_absent BATCH_ID);
                [right; by left|by apply find_label_absent]]].
  destruct (List.find (label_line POINTS) (split LF qrData)) as [lp|] eqn:Hp;
    [|split; [by right; right; left
             |intros _; apply (parse_qr_data_absent POINTS);
                [right; by right|by apply find_label_absent]]].
  destruct (parse_qr_data_found lq lb lp Hq Hb Hp)
    as (q & b & p & _ & _ & _ & Hfield & ->).
  rewrite Hfield. split.
  - intros Hnone. do 3 right. exists (trim p). split; [done|].
    destruct (parseInt (trim p)) as [n|]; [|by left].
    right. exists n. split; [done|].
    destruct (Z.leb_spec n 0); [done|discriminate].
  - intros [?|[?|[?|(p' & [= <-] & [Hnan|(n & Hn & Hle)])]]]; try done.
    + by rewrite Hnan.
    + rewrite Hn. by destruct (Z.leb_spec n 0); [|lia].
Qed.

End Parser.

(** C7.  The parser gives up exactly when a required label line is absent,
    or JavaScript's [parseInt], called without a radix, finds no number in
    the points field, or the number it finds is zero or negative; so a
    payload whose points field is [0] or [-5] is refused.  A result is a
    whole triple or nothing. *)
Theorem parse_failure_conditions qrData :
  (parse_qr_data qrData = None <-> malformed qrData) /\
  (points_field qrData = Some (js "0") -> parse_qr_data qrData = None) /\
  (points_field qrData = Some (js "-5") -> parse_qr_data qrData = None).
Proof.
  split_and!; [apply parse_qr_data_malformed|..];
    intros Hfield; apply parse_qr_data_malformed; do 3 right;
    eexists; (split; [exact Hfield|]); right.
  - exists 0. by split.
  - exists (-5). by split.
Qed.

Lemma parse_failure_conditions_witness :
  parse_qr_data (unlines [js "QR ID: A1"; js "Batch ID: B1"; js "Points: 0"])
  = None /\
  parse_qr_data (unlines [js "QR ID: A1"; js "Batch ID: B1"; js "Points: -5"])
  = None.
Proof.
  split.
  - destruct (parse_failure_conditions
                (unlines [js "QR ID: A1"; js "Batch ID: B1"; js "Points: 0"]))
      as (_ & Hzero & _).
    apply Hzero. reflexivity.
  - destruct (parse_failure_conditions
                (unlines [js "QR ID: A1"; js "Batch ID: B1"; js "Points: -5"]))
      as (_ & _ & Hminus).
    apply Hminus. reflexivity.
Defined.

(** A points field in hexadecimal is accepted: read in base 10 the field
    [0x10] is [0] and the payload would be refused, but the parser returns
    16 points. *)
Lemma hex_points_accepted :
  points_field Sample.hex_points = Some (js "0x10") /\
  parse_qr_data Sample.hex_points = Some (js "A1", js "B1", 16) /\
  ~ (parse_qr_data Sample.hex_points = None
     <-> SpecReading.malformed_base10 Sample.hex_points).
Proof.
  split_and!; [reflexivity..|]. intros [_ Hclaim].
  assert (parse_qr_data Sample.hex_points = None) as Hnone; [|done].
  apply Hclaim. do 3 right. exists (js "0x10"). split; [reflexivity|].
  right. exists 0. by split.
Qed.





(** C10.  On the first line of a label, the value read is the text between
    the colon of the label and the next colon of the line, trimmed; whatever
    follows that second colon is dropped. *)
Theorem value_cut_at_second_colon qrData label line :
  is_label label ->
  first_line label (split LF qrData) line ->
  exists w tail,
    white w /\ line = w ++ label ++ tail /\
    forall value rest,
      tail = value ++ COLON :: rest -> COLON ∉ value ->
      second_piece line = Some value /\
      forall qrId batchId points,
        parse_qr_data qrData = Some (qrId, batchId, points) ->
        (label = QR_ID -> qrId = trim value) /\
        (label = BATCH_ID -> batchId = trim value) /\
        (label = POINTS -> parseInt (trim value) = Some points).
Proof.
  intros Hlabel Hfirst. pose proof Hfirst as (_ & _ & _ & Hline & _).
  apply label_line_prefix in Hline as (w & tail & Hw & ->); [|done].
  exists w, tail. split_and!; [done..|].
  intros value rest -> Hvalue.
  assert (second_piece (w ++ label ++ value ++ COLON :: rest) = Some value)
    as Hpiece by by apply second_piece_cut.
  split; [done|]. intros qrId batchId points Hparse.
  apply find_label_first in Hfirst.
  destruct (List.find (label_line QR_ID) (split LF qrData)) as [lq|] eqn:Hq;
    [|by rewrite (parse_qr_data_absent qrData QR_ID) in Hparse;
        [|by left|by apply find_label_absent]].
  destruct (List.find (label_line BATCH_ID) (split LF qrData)) as [lb|] eqn:Hb;
    [|by rewrite (parse_qr_data_absent qrData BATCH_ID) in Hparse;
        [|right; by left|by apply find_label_absent]].
  destruct (List.find (label_line POINTS) (split LF qrData)) as [lp|] eqn:Hp;
    [|by rewrite (parse_qr_data_absent qrData POINTS) in Hparse;
        [|right; by right|by apply find_label_absent]].
  destruct (parse_qr_data_found qrData lq lb lp Hq Hb Hp)
    as (q & b & p & Sq & Sb & Sp & _ & Heq).
  rewrite Heq in Hparse.
  destruct (parseInt (trim p)) as [n|] eqn:Hn; [|done].
  destruct (n <=? 0); [done|]. injection Hparse as <- <- <-.
  split_and!; intros ->; simplify_eq; congruence.
Qed.

Lemma value_cut_at_second_colon_witness :
  second_piece (js "Batch ID: http://x") = Some (js " http") /\
  parse_qr_data Sample.colons = Some (js "A", js "http", 5).
Proof.
  split; [|reflexivity].
  destruct (value_cut_at_second_colon Sample.colons BATCH_ID
              (js "Batch ID: http://x")) as (w & tail & Hw & Heq & Hcut).
  - right. by left.
  - exists [js "QR ID: A:B"], [js "Points: 5:3"].
    split_and!; [reflexivity..|]. by repeat constructor.
  - destruct (Hcut (js " http") (js "//x")) as [Hpiece _]; [| |exact Hpiece].
    + destruct w as [|c w].
      * by injection Heq as <-.
      * injection Heq as <- _. by inversion Hw.
    + by apply (bool_decide_unpack _).
Defined.

(** ** Reading and adjusting points *)

Section Points.

Implicit Types (db : Store) (username operation : jsstring) (body : PointsBody).

Lemma setPoints_found username n db i c :
  findByUsername username db = Some (i, c) ->
  setPoints username n db
  = (Some (with_points c n),
     mkStore (<[i := with_points c n]> (Customers db)) (QRBatches db)).
Proof. intros Hfind. unfold setPoints. by rewrite Hfind. Qed.

Lemma findByUsername_insert username db i c n batches :
  findByUsername username db = Some (i, c) ->
  findByUsername username
    (mkStore (<[i := with_points c n]> (Customers db)) batches)
  = Some (i, with_points c n).
Proof.
  intros Hfind. unfold findByUsername in *. simpl.
  apply list_find_Some in Hfind as Hfound. destruct Hfound as (Hi & _ & _).
  rewrite (list_find_key_insert Customer.username username _ i c) by done.
  rewrite Hfind. simpl. by rewrite decide_True.
Qed.

Lemma run_update_points_found username body db p i c :
  body_points body = Some p ->
  findByUsername username db = Some (i, c) ->
  run (update_points username body) db
  = (Updated (Customer.points c)
             (Some (newPoints (default SET (body_operation body))
                              (Customer.points c) p))
             (default SET (body_operation body)),
     mkStore (<[i := with_points c
                        (newPoints (default SET (body_operation body))
                                   (Customer.points c) p)]> (Customers db))
             (QRBatches db)).
Proof.
  intros Hp Hfind. unfold update_points. rewrite Hp. simpl.
  rewrite Hfind. simpl.
  by rewrite (setPoints_found username _ db i c Hfind).
Qed.

Lemma run_update_points_missing username body db :
  findByUsername username db = None ->
  (run (update_points username body) db).2 = db.
Proof.
  intros Hfind. unfold update_points.
  destruct (body_points body); [|done]. simpl. by rewrite Hfind.
Qed.

Lemma adjust_found operation p username db i c :
  findByUsername username db = Some (i, c) ->
  adjust operation p username db
  = mkStore (<[i := with_points c (newPoints operation (Customer.points c) p)]>
               (Customers db))
            (QRBatches db).
Proof.
  intros Hfind. unfold adjust.
  by rewrite (run_update_points_found username
                (mkBody (Some p) (Some operation)) db p i c eq_refl Hfind).
Qed.

Lemma adjust_missing operation p username db :
  findByUsername username db = None -> adjust operation p username db = db.
Proof. apply run_update_points_missing. Qed.

Lemma with_points_with_points c n m :
  with_points (with_points c n) m = with_points c m.
Proof. done. Qed.

Lemma with_points_same c : with_points c (Customer.points c) = c.
Proof. by destruct c. Qed.

(** Two adjustments in a row write what one adjustment with the composed
    balance writes. *)
Lemma adjust_adjust op1 op2 op p1 p2 p username db :
  (forall bal,
     newPoints op2 (newPoints op1 bal p1) p2 = newPoints op bal p) ->
  adjust op2 p2 username (adjust op1 p1 username db)
  = adjust op p username db.
Proof.
  intros Hcompose.
  destruct (findByUsername username db) as [[i c]|] eqn:Hfind.
  - rewrite (adjust_found op1 p1 username db i c Hfind).
    rewrite (adjust_found op p username db i c Hfind).
    rewrite (adjust_found op2 p2 username _ i (with_points c _))
      by by apply findByUsername_insert.
    simpl. by rewrite list_insert_insert_eq, with_points_with_points, Hcompose.
  - by rewrite !adjust_missing by by rewrite ?adjust_missing.
Qed.

End Points.



(** X2.  Whatever the route parameter and the body, an adjustment touches
    no batch, keeps the number of customers and the id, name and username
    of each, leaves as it was every customer whose stored username is not
    the route parameter in lower case and trimmed, and changes nothing at
    all unless it answers with success. *)
Theorem update_points_frame toLowerCase param body db :
  QRBatches (run (patch_customer_points toLowerCase param body) db).2
  = QRBatches db /\
  length (Customers (run (patch_customer_points toLowerCase param body) db).2)
  = length (Customers db) /\
  (forall k c,
     Customers db !! k = Some c ->
     exists c',
       Customers (run (patch_customer_points toLowerCase param body) db).2 !! k
       = Some c' /\
       Customer._id c' = Customer._id c /\
       Customer.name c' = Customer.name c /\
       Customer.username c' = Customer.username c /\
       (Customer.username c <> trim (toLowerCase param) -> c' = c)) /\
  (match (run (patch_customer_points toLowerCase param body) db).1 with
   | Updated _ _ _ => True
   | _ => (run (patch_customer_points toLowerCase param body) db).2 = db
   end).
Proof.
  unfold patch_customer_points, cast_username.
  generalize (trim (toLowerCase param)). intros username.
  destruct (body_points body) as [p|] eqn:Hp;
    [|unfold update_points; rewrite Hp; simpl; split_and!; eauto 10].
  destruct (findByUsername username db) as [[i c]|] eqn:Hfind.
  - rewrite (run_update_points_found username body db p i c Hp Hfind). simpl.
    apply list_find_Some in Hfind as (Hi & Hname & _).
    split_and!; try done; [by rewrite length_insert|].
    intros k c0 Hk. destruct (decide (k = i)) as [->|Hne].
    + rewrite list_lookup_insert_eq by by eapply lookup_lt_Some.
      simplify_eq. eexists. by split_and!.
    + rewrite list_lookup_insert_ne by done. eauto 10.
  - unfold update_points. rewrite Hp. simpl. rewrite Hfind. simpl.
    split_and!; eauto 10.
Qed.

Lemma update_points_frame_witness :
  (exists c',
     Customers (run (patch_customer_points Accounts.ascii_lower (js " Bob ")
                                           Ledger.subtract_100)
                    Ledger.store).2 !! 0%nat = Some c' /\
     Customer._id c' = Customer._id Sample.ann /\
     Customer.name c' = Customer.name Sample.ann /\
     Customer.username c' = Customer.username Sample.ann /\
     (Customer.username Sample.ann <> trim (Accounts.ascii_lower (js " Bob "))
      -> c' = Sample.ann)) /\
  balance (js "c2")
    (run (patch_customer_points Accounts.ascii_lower (js " Bob ")
                                Ledger.subtract_100) Ledger.store).2
  = Some 0.
Proof.
  split; [|reflexivity].
  destruct (update_points_frame Accounts.ascii_lower (js " Bob ")
              Ledger.subtract_100 Ledger.store)
    as (_ & _ & Hkeep & _).
  apply (Hkeep 0%nat Sample.ann). reflexivity.
Defined.

(** X3.  Adjustments of one customer compose: a [set] overrides whatever
    adjustment came before it, two [add]s add up, two [subtract]s of
    non-negative amounts subtract their sum, and subtracting what was just
    added gives the store back when the amount and the balance are not
    negative.  In each case the balance of the customer, the amounts and
    every sum and difference the two requests and the single request compute
    are safe integers, which a double holds exactly. *)
Theorem adjust_compose username db :
  (forall operation p q,
     (forall i c,
        findByUsername username db = Some (i, c) ->
        safe_integers
          [Customer.points c; p; q; newPoints operation (Customer.points c) q]) ->
     adjust SET p username (adjust operation q username db)
     = adjust SET p username db) /\
  (forall a b,
     (forall i c,
        findByUsername username db = Some (i, c) ->
        safe_integers
          [Customer.points c; a; b; a + b;
           Customer.points c + a; Customer.points c + a + b]) ->
     adjust ADD b username (adjust ADD a username db)
     = adjust ADD (a + b) username db) /\
  (forall a b,
     0 <= a -> 0 <= b ->
     (forall i c,
        findByUsername username db = Some (i, c) ->
        safe_integers
          [Customer.points c; a; b; a + b;
           Customer.points c - a; Z.max 0 (Customer.points c - a) - b;
           Customer.points c - (a + b)]) ->
     adjust SUBTRACT b username (adjust SUBTRACT a username db)
     = adjust SUBTRACT (a + b) username db) /\
  (forall p,
     0 <= p ->
     (forall i c, findByUsername username db = Some (i, c) ->
                  0 <= Customer.points c) ->
     (forall i c,
        findByUsername username db = Some (i, c) ->
        safe_integers [Customer.points c; p; Customer.points c + p]) ->
     adjust SUBTRACT p username (adjust ADD p username db) = db).
Proof.
  split_and!.
  - intros operation p q _. by apply adjust_adjust.
  - intros a b _. apply adjust_adjust. intros bal.
    rewrite (newPoints_add (newPoints ADD bal a) b), (newPoints_add bal a),
      (newPoints_add bal (a + b)). lia.
  - intros a b Ha Hb _. apply adjust_adjust. intros bal.
    rewrite (newPoints_subtract (newPoints SUBTRACT bal a) b),
      (newPoints_subtract bal a), (newPoints_subtract bal (a + b)). lia.
  - intros p Hp Hbal _.
    destruct (findByUsername username db) as [[i c]|] eqn:Hfind.
    + rewrite (adjust_found ADD p username db i c Hfind).
      rewrite (adjust_found SUBTRACT p username _ i (with_points c _))
        by by apply findByUsername_insert.
      simpl. rewrite list_insert_insert_eq, with_points_with_points.
      rewrite (newPoints_subtract _ p), (newPoints_add _ p).
      specialize (Hbal i c eq_refl).
      replace (Z.max 0 (Customer.points c + p - p)) with (Customer.points c)
        by lia.
      rewrite with_points_same.
      apply list_find_Some in Hfind as (Hi & _).
      rewrite list_insert_id by done. by destruct db.
    + by rewrite !adjust_missing by by rewrite ?adjust_missing.
Qed.

Lemma adjust_compose_witness :
  adjust SUBTRACT 5 (js "bob") (adjust SUBTRACT 10 (js "bob") Ledger.store)
  = adjust SUBTRACT (10 + 5) (js "bob") Ledger.store /\
  adjust SUBTRACT 40 (js "bob") (adjust ADD 40 (js "bob") Ledger.store)
  = Ledger.store.
Proof.
  destruct (adjust_compose (js "bob") Ledger.store)
    as (_ & _ & Hsub & Hundo).
  split.
  - apply Hsub; [lia..|]. intros i c [= <- <-]. by repeat constructor.
  - apply Hundo; [lia| |].
    + intros i c [= <- <-]. simpl. lia.
    + intros i c [= <- <-]. by repeat constructor.
Defined.

(** X5.  An operation that is neither [add] nor [subtract], be it [set], a
    name the handler does not know or no operation at all, is carried out
    as [set]; and every operation but [add] stores a balance that is not
    negative, as a read of the points shows. *)
Theorem other_operations_set username points db :
  (forall operation,
     operation <> ADD -> operation <> SUBTRACT ->
     adjust operation points username db = adjust SET points username db) /\
  (run (update_points username (mkBody (Some points) None)) db).2
  = adjust SET points username db /\
  (forall operation u name n,
     operation <> ADD ->
     findByUsername username db <> None ->
     (run (get_points username) (adjust operation points username db)).1
     = PointsOf u name n ->
     0 <= n).
Proof.
  split_and!.
  - intros operation Hadd Hsub.
    destruct (findByUsername username db) as [[i c]|] eqn:Hfind.
    + rewrite !(adjust_found _ points username db i c Hfind).
      by rewrite (newPoints_default operation), (newPoints_default SET).
    + by rewrite !adjust_missing.
  - done.
  - intros operation u name n Hadd Hsome.
    destruct (findByUsername username db) as [[i c]|] eqn:Hfind; [|done].
    rewrite (adjust_found operation points username db i c Hfind). simpl.
    erewrite findByUsername_insert by done. simpl.
    intros [= _ _ <-]. by apply newPoints_floor.
Qed.

Lemma other_operations_set_witness :
  adjust (js "substract") 7 (js "bob") Ledger.store
  = adjust SET 7 (js "bob") Ledger.store /\
  (run (get_points (js "bob"))
       (adjust SUBTRACT 100 (js "bob") Ledger.store)).1
  = PointsOf (js "bob") (js "Bob") 0.
Proof.
  destruct (other_operations_set (js "bob") 7 Ledger.store) as (Hset & _).
  split; [|reflexivity]. by apply Hset.
Defined.

Lemma list_find_unique_key {A K} `{EqDecision K} (key : A -> K)
    (l : list A) i x :
  NoDup (key <$> l) -> l !! i = Some x ->
  list_find (fun a => key a = key x) l = Some (i, x).
Proof.
  intros Huniq Hi. apply list_find_Some. split_and!; [done..|].
  intros k y Hk Hlt Hkey.
  assert (k = i); [|lia].
  eapply NoDup_lookup; [exact Huniq| |].
  - rewrite list_lookup_fmap, Hk. simpl. by rewrite Hkey.
  - by rewrite list_lookup_fmap, Hi.
Qed.

Lemma run_get_points_found username db i c :
  findByUsername username db = Some (i, c) ->
  run (get_points username) db
  = (PointsOf (Customer.username c) (Customer.name c) (Customer.points c), db).
Proof. intros Hfind. simpl. by rewrite Hfind. Qed.

(** X4.  After a successful redemption, a read of the caller's points by
    username returns the total the redemption answered with.  The balance,
    the point value and their sum are safe integers, which a double holds
    exactly. *)
Theorem redeem_then_read
    db user_id qrData qrId batchId points i j qrBatch qrCode k customer :
  parse_qr_data qrData = Some (qrId, batchId, points) ->
  unique_batch_ids db ->
  QRBatches db !! i = Some qrBatch ->
  QRBatch.batchId qrBatch = batchId ->
  QRBatch.isActive qrBatch = true ->
  unique_qr_ids qrBatch ->
  QRBatch.qrCodes qrBatch !! j = Some qrCode ->
  QRItem.qrId qrCode = qrId ->
  QRItem.isScanned qrCode = false ->
  unique_usernames db ->
  list_find (fun c => Customer._id c = user_id) (Customers db)
  = Some (k, customer) ->
  safe_integers
    [Customer.points customer; points; Customer.points customer + points] ->
  exists summary db',
    run (scan_qr user_id qrData) db
    = (Success points (Customer.points customer + points) qrId batchId
               summary, db') /\
    run (get_points (Customer.username customer)) db'
    = (PointsOf (Customer.username customer) (Customer.name customer)
                (Customer.points customer + points), db').
Proof.
  intros Hparse Hids Hi Hid Hact Hqrs Hj Hqr Hfresh Hnames Hcust _.
  assert (balance user_id db = Some (Customer.points customer)) as Hbal
    by (unfold balance; by rewrite Hcust).
  destruct (run_scan_success db user_id qrData qrId batchId points Hparse
              i j qrBatch qrCode Hids Hi Hid Hact Hqrs Hj Hqr _ Hfresh Hbal)
    as (customer' & db1 & Hinc & _ & _ & Hrun & _).
  eexists _, _. split; [exact Hrun|].
  unfold incPoints in Hinc. rewrite Hcust in Hinc.
  injection Hinc as <- <-.
  apply list_find_Some in Hcust as (Hk & _).
  pose proof (list_find_unique_key Customer.username _ k customer Hnames Hk)
    as Hfind.
  apply (run_get_points_found _ _ k
           (with_points customer (Customer.points customer + points))).
  apply (findByUsername_insert (Customer.username customer) db k customer
           (Customer.points customer + points) _ Hfind).
Qed.

Lemma redeem_then_read_witness :
  exists summary db',
    run (scan_qr (js "c2") Sample.payload) Ledger.store
    = (Success 50 (12 + 50) (js "A1") (js "B1") summary, db') /\
    run (get_points (js "bob")) db'
    = (PointsOf (js "bob") (js "Bob") (12 + 50), db').
Proof.
  apply (redeem_then_read Ledger.store (js "c2") Sample.payload
           (js "A1") (js "B1") 50 0 0
           (Sample.batch false true) (Sample.code false) 1 Ledger.bob);
    try reflexivity; try apply NoDup_singleton.
  - by apply (bool_decide_unpack _).
  - by repeat constructor.
Defined.

(** ** The scheme catalogue *)

Section Schemes.

Variables (ADMIN_BACKEND_URL : option jsstring) (schemes : list Scheme.t).




End Schemes.






Lemma startsWith_app s t p :
  startsWith s p = true -> startsWith (s ++ t) p = true.
Proof.
  rewrite !startsWith_prefix. intros [r ->]. exists (r ++ t).
  by rewrite app_assoc.
Qed.

(** X8.  The image of a served scheme is null exactly when the stored image
    is missing or empty.  Otherwise it is the stored image itself when that
    starts with [http], and else the admin base followed by a path that
    starts with a slash: the stored image as it is when it starts with a
    slash, however many slashes it starts with, and the stored image with
    one slash put in front when it starts with none.  When the admin base
    starts with [http], serving a served image again changes nothing. *)
Theorem served_image_url ADMIN_BACKEND_URL image :
  (fullImageUrl ADMIN_BACKEND_URL image = None
   <-> image = None \/ image = Some []) /\
  (forall url,
     fullImageUrl ADMIN_BACKEND_URL image = Some url ->
     url <> [] /\
     ((image = Some url /\ startsWith url (js "http") = true) \/
      exists stored path,
        image = Some stored /\ startsWith stored (js "http") = false /\
        url = to_text ADMIN_BACKEND_URL ++ path /\
        startsWith path (js "/") = true /\
        ((path = stored /\ startsWith stored (js "/") = true) \/
         (path = js "/" ++ stored /\ startsWith stored (js "/") = false)))) /\
  (startsWith (to_text ADMIN_BACKEND_URL) (js "http") = true ->
   fullImageUrl ADMIN_BACKEND_URL (fullImageUrl ADMIN_BACKEND_URL image)
   = fullImageUrl ADMIN_BACKEND_URL image).
Proof.
  unfold fullImageUrl.
  destruct image as [[|c stored]|];
    [split_and!; [split; [by right|done]|done..]|
    |split_and!; [split; [by left|done]|done..]].
  destruct (startsWith (c :: stored) (js "http")) eqn:Hhttp.
  - split_and!; [split; [done|by intros [|]]| |by rewrite Hhttp].
    intros url [= <-]. split; [done|]. by left.
  - destruct (startsWith (c :: stored) (js "/")) eqn:Hslash.
    + split_and!; [split; [done|by intros [|]]| |].
      * intros url [= <-]. split; [by destruct (to_text ADMIN_BACKEND_URL)|].
        right. exists (c :: stored), (c :: stored). split_and!; auto.
      * intros Hbase.
        destruct (to_text ADMIN_BACKEND_URL ++ c :: stored) as [|u url] eqn:Hurl;
          [by destruct (to_text ADMIN_BACKEND_URL)|].
        rewrite <- Hurl. by rewrite (startsWith_app _ _ _ Hbase).
    + split_and!; [split; [done|by intros [|]]| |].
      * intros url [= <-]. split; [by destruct (to_text ADMIN_BACKEND_URL)|].
        right. exists (c :: stored), (js "/" ++ c :: stored).
        split_and!; auto.
      * intros Hbase.
        destruct (to_text ADMIN_BACKEND_URL ++ js "/" ++ c :: stored)
          as [|u url] eqn:Hurl;
          [by destruct (to_text ADMIN_BACKEND_URL)|].
        rewrite <- Hurl. by rewrite (startsWith_app _ _ _ Hbase).
Qed.

Lemma served_image_url_witness :
  view_image <$> schemes_data (get_schemes None None Catalog.admin
                                           Catalog.schemes)
  = [Some (js "https://cdn/a.png"); Some (js "http://admin/uploads/b.png");
     Some (js "http://admin/uploads/c.png"); None; None] /\
  fullImageUrl Catalog.admin (Some (js "//x.png"))
  = Some (js "http://admin//x.png") /\
  fullImageUrl Catalog.admin
    (fullImageUrl Catalog.admin (Some (js "uploads/c.png")))
  = fullImageUrl Catalog.admin (Some (js "uploads/c.png")).
Proof.
  split; [reflexivity|]. split; [reflexivity|].
  destruct (served_image_url Catalog.admin (Some (js "uploads/c.png")))
    as (_ & _ & Hagain).
  apply Hagain. reflexivity.
Defined.

(** ** The token of a request *)

Section TokenFacts.

Implicit Types (s t w : jsstring) (c : N).

Lemma replaceWhiteRuns_white_run w s :
  white w -> replaceWhiteRuns (w ++ s) true = replaceWhiteRuns s true.
Proof. induction 1 as [|c w Hc _ IH]; [done|]. simpl. by rewrite Hc. Qed.

Lemma replaceWhiteRuns_white w s :
  white w -> w <> [] ->
  replaceWhiteRuns (w ++ s) false = 32%N :: replaceWhiteRuns s true.
Proof.
  intros Hw Hne. destruct Hw as [|c w Hc Hw]; [done|]. simpl.
  by rewrite Hc, replaceWhiteRuns_white_run.
Qed.

Lemma replaceWhiteRuns_visible t s in_run :
  visible t -> t <> [] ->
  replaceWhiteRuns (t ++ s) in_run = t ++ replaceWhiteRuns s false.
Proof.
  intros Ht Hne. revert in_run.
  induction Ht as [|c t Hc Ht IH]; [done|]. intros in_run. simpl.
  rewrite Hc. destruct t as [|c' t']; [done|]. by rewrite IH.
Qed.

Lemma replaceWhiteRuns_end w in_run :
  white w -> exists w', white w' /\ replaceWhiteRuns w in_run = w'.
Proof.
  intros Hw. revert in_run.
  induction Hw as [|c w Hc _ IH]; intros in_run;
    [exists []; split; [constructor|done]|]. simpl.
  rewrite Hc. destruct (IH true) as (w' & Hw' & ->).
  destruct in_run; [by exists w'|].
  exists (32%N :: w'). split; [by constructor|done].
Qed.

Lemma trimStart_head s :
  trimStart s = [] \/
  exists c r, trimStart s = c :: r /\ is_white_space c = false.
Proof.
  induction s as [|c s IH]; [by left|]. simpl.
  destruct (is_white_space c) eqn:Hc; [done|]. right. eauto.
Qed.

Lemma trimStart_trimStart s : trimStart (trimStart s) = trimStart s.
Proof.
  destruct (trimStart_head s) as [->|(c & r & -> & Hc)]; [done|].
  by apply trimStart_stop.
Qed.

Lemma trimEnd_trimEnd s : trimEnd (trimEnd s) = trimEnd s.
Proof. unfold trimEnd. by rewrite rev_involutive, trimStart_trimStart. Qed.

Lemma trimEnd_cons_stop c s :
  is_white_space c = false -> trimEnd (c :: s) = c :: trimEnd s.
Proof. intros Hc. by apply (trimEnd_app_stop [] c s). Qed.

Lemma trim_trim s : trim (trim s) = trim s.
Proof.
  unfold trim.
  destruct (trimStart_head s) as [->|(c & r & -> & Hc)]; [done|].
  rewrite trimEnd_cons_stop by done.
  rewrite trimStart_stop by done.
  by rewrite trimEnd_cons_stop, trimEnd_trimEnd by done.
Qed.

(** A string with visible ends is its own trim. *)
Lemma trim_visible_ends c s d :
  is_white_space c = false -> is_white_space d = false ->
  trim (c :: s ++ [d]) = c :: s ++ [d].
Proof.
  intros Hc Hd. unfold trim. rewrite trimStart_stop by done.
  rewrite app_comm_cons, trimEnd_app_stop by done. done.
Qed.

Lemma trim_visible t : visible t -> trim t = t.
Proof.
  intros Ht. destruct t as [|c t]; [done|].
  inversion Ht as [|? ? Hc Ht']; subst.
  destruct (rev t) as [|d r] eqn:Hrev.
  - apply (f_equal (@rev N)) in Hrev. rewrite rev_involutive in Hrev.
    subst t. unfold trim. rewrite trimStart_stop by done.
    by rewrite trimEnd_cons_stop.
  - apply (f_equal (@rev N)) in Hrev. rewrite rev_involutive in Hrev.
    simpl in Hrev. subst t.
    apply trim_visible_ends; [done|].
    apply Forall_app in Ht' as [_ Hd]. by inversion Hd.
Qed.

(** The end of a trimmed string is visible. *)
Lemma trim_last s r c : trim s = r ++ [c] -> is_white_space c = false.
Proof.
  unfold trim, trimEnd. intros Htrim.
  apply (f_equal (@rev N)) in Htrim.
  rewrite rev_involutive, rev_app_distr in Htrim. simpl in Htrim.
  destruct (trimStart_head (rev (trimStart s)))
    as [Hnil|(c' & r' & Heq & Hc')]; congruence.
Qed.

Lemma single_spaced_replaceWhiteRuns s in_run :
  single_spaced in_run (replaceWhiteRuns s in_run) = true.
Proof.
  revert in_run. induction s as [|c s IH]; intros in_run; [done|]. simpl.
  destruct (is_white_space c) eqn:Hc.
  - destruct in_run; [done|]. simpl. apply IH.
  - simpl. rewrite Hc. apply IH.
Qed.

Lemma single_spaced_weaken b s :
  single_spaced b s = true -> single_spaced false s = true.
Proof.
  destruct s as [|c s]; [done|]. simpl.
  destruct (is_white_space c); [|done]. by intros [_ ?]%andb_true_iff.
Qed.

Lemma single_spaced_app_r b s t :
  single_spaced b (s ++ t) = true -> single_spaced false t = true.
Proof.
  revert b. induction s as [|c s IH]; intros b; simpl.
  - apply single_spaced_weaken.
  - destruct (is_white_space c); [intros [_ ?]%andb_true_iff|]; eauto.
Qed.

Lemma single_spaced_app_l b s t :
  single_spaced b (s ++ t) = true -> single_spaced b s = true.
Proof.
  revert b. induction s as [|c s IH]; intros b; simpl; [done|].
  destruct (is_white_space c); [|by eauto].
  intros [-> ?]%andb_true_iff. simpl. eauto.
Qed.

Lemma single_spaced_trim s :
  single_spaced false s = true -> single_spaced false (trim s) = true.
Proof.
  intros Hs. unfold trim.
  destruct (trimStart_split s) as (w & _ & Hstart).
  destruct (trimEnd_split (trimStart s)) as (w' & _ & Hend).
  rewrite Hstart in Hs. apply single_spaced_app_r in Hs.
  rewrite Hend in Hs. by apply single_spaced_app_l in Hs.
Qed.

(** What follows [Bearer] and its space in a header made ready is never
    empty and is its own trim. *)
Lemma bearer_rest header rest :
  trim (replaceWhiteRuns header false) = js "Bearer " ++ rest ->
  rest <> [] /\ trim rest = rest.
Proof.
  intros Hready.
  pose proof (single_spaced_trim _
                (single_spaced_replaceWhiteRuns header false)) as Hspaced.
  rewrite Hready in Hspaced.
  destruct (rev rest) as [|d r] eqn:Hrev.
  - apply (f_equal (@rev N)) in Hrev. rewrite rev_involutive in Hrev.
    subst rest. by apply (trim_last _ (js "Bearer") 32%N) in Hready.
  - apply (f_equal (@rev N)) in Hrev. rewrite rev_involutive in Hrev.
    simpl in Hrev. subst rest. split; [by destruct (rev r)|].
    assert (is_white_space d = false) as Hd.
    { apply (trim_last (replaceWhiteRuns header false)
               (js "Bearer " ++ rev r) d).
      by rewrite Hready, app_assoc. }
    destruct (rev r) as [|c m]; simpl in *.
    + unfold trim. simpl. rewrite Hd. by rewrite trimEnd_cons_stop.
    + destruct (is_white_space c) eqn:Hc; [done|].
      by apply trim_visible_ends.
Qed.

End TokenFacts.

Lemma trim_between t1 mid t2 :
  visible t1 -> t1 <> [] -> visible t2 -> t2 <> [] ->
  trim (t1 ++ mid ++ t2) = t1 ++ mid ++ t2.
Proof.
  intros H1 N1 H2 N2.
  destruct t1 as [|c t1]; [done|]. inversion H1 as [|? ? Hc _]; subst.
  destruct (rev t2) as [|d r] eqn:Hrev;
    apply (f_equal (@rev N)) in Hrev; rewrite rev_involutive in Hrev;
    simpl in Hrev; subst t2; [done|].
  apply Forall_app in H2 as [_ Hd]. inversion Hd as [|? ? Hd' _]; subst.
  rewrite <- app_comm_cons, !app_assoc. rewrite <- (app_assoc t1).
  by apply trim_visible_ends.
Qed.

Lemma request_token_trimmed authorization cookie token :
  request_token authorization cookie = Some token -> trim token = token.
Proof.
  unfold request_token.
  destruct authorization as [[|c header]|].
  - destruct cookie as [[|d value]|]; [done| |done].
    intros [= <-]. apply trim_trim.
  - destruct (startsWith _ (js "Bearer ")) eqn:Hbearer; [|done].
    apply startsWith_prefix in Hbearer as [rest Hready].
    rewrite Hready. intros [= <-].
    apply bearer_rest in Hready as [_ Hrest].
    rewrite drop_0. by rewrite !Hrest.
  - destruct cookie as [[|d value]|]; [done| |done].
    intros [= <-]. apply trim_trim.
Qed.

(** X9.  However the Authorization header is laid out with white space,
    before [Bearer], between [Bearer] and the token and after the token,
    the token handed to the verifier is the token itself, and the cookie
    plays no part. *)
Theorem bearer_token_layout verify w0 w1 w2 token cookie :
  white w0 -> white w1 -> w1 <> [] -> white w2 ->
  visible token -> token <> [] ->
  request_token (Some (w0 ++ js "Bearer" ++ w1 ++ token ++ w2)) cookie
  = Some token /\
  authenticateToken verify
    (Some (w0 ++ js "Bearer" ++ w1 ++ token ++ w2)) cookie
  = match verify token with
    | Some decoded => Next decoded
    | None => Forbidden
    end.
Proof.
  intros Hw0 Hw1 Nw1 Hw2 Htoken Ntoken.
  assert (visible (js "Bearer")) as Hbearer by by repeat constructor.
  assert (trim (replaceWhiteRuns
                  (w0 ++ js "Bearer" ++ w1 ++ token ++ w2) false)
          = js "Bearer" ++ [32%N] ++ token) as Hready.
  { destruct (replaceWhiteRuns_end w2 false Hw2) as (w' & Hw' & Hend).
    assert (forall in_run,
              replaceWhiteRuns (js "Bearer" ++ w1 ++ token ++ w2) in_run
              = (js "Bearer" ++ [32%N] ++ token) ++ w') as Hbody.
    { intros in_run. rewrite replaceWhiteRuns_visible by done.
      rewrite replaceWhiteRuns_white by done.
      rewrite replaceWhiteRuns_visible by done.
      by rewrite Hend, <- !app_assoc. }
    destruct w0 as [|c w0].
    - rewrite app_nil_l, Hbody.
      transitivity (trim ([] ++ (js "Bearer" ++ [32%N] ++ token) ++ w'));
        [done|].
      rewrite trim_pad; [by apply trim_between|constructor|done].
    - rewrite replaceWhiteRuns_white by done. rewrite Hbody.
      transitivity (trim ([32%N] ++ (js "Bearer" ++ [32%N] ++ token) ++ w'));
        [done|].
      rewrite trim_pad; [by apply trim_between|by repeat constructor|done]. }
  assert (request_token (Some (w0 ++ js "Bearer" ++ w1 ++ token ++ w2)) cookie
          = Some token) as Hrequest.
  { unfold request_token.
    destruct (w0 ++ js "Bearer" ++ w1 ++ token ++ w2) as [|c header] eqn:Hheader;
      [by destruct w0|].
    rewrite Hready.
    change (startsWith (js "Bearer" ++ [32%N] ++ token) (js "Bearer "))
      with true.
    change (drop 7 (js "Bearer" ++ [32%N] ++ token)) with token.
    by rewrite trim_visible. }
  split; [done|]. unfold authenticateToken. rewrite Hrequest.
  by destruct token.
Qed.

Lemma bearer_token_layout_witness :
  request_token (Some ([9; 32]%N ++ js "Bearer" ++ [32; 160; 32]%N
                                 ++ js "abc.def" ++ [13; 10]%N))
                (Some (js "other"))
  = Some (js "abc.def") /\
  authenticateToken Tokens.verify
    (Some ([9; 32]%N ++ js "Bearer" ++ [32; 160; 32]%N
                     ++ js "abc.def" ++ [13; 10]%N))
    (Some (js "other"))
  = Next (mkPayload (js "ann") (js "c1")).
Proof.
  apply (bearer_token_layout Tokens.verify [9; 32]%N [32; 160; 32]%N
           [13; 10]%N (js "abc.def") (Some (js "other")));
    try (by repeat constructor); done.
Defined.

(** X10.  The verifier is only ever given a token that is not empty and has
    no white space at either end; when the request has an Authorization
    header that is not the empty string, the cookie is not looked at, so
    that such a header that is not a Bearer header is answered 401 whatever
    the cookie holds; an Authorization header that is the empty string
    counts as no header, and the cookie is looked at. *)
Theorem token_before_verify verify authorization cookie :
  (forall user,
     authenticateToken verify authorization cookie = Next user ->
     exists token,
       token <> [] /\ trim token = token /\ verify token = Some user) /\
  (authenticateToken verify authorization cookie = Forbidden ->
   exists token,
     token <> [] /\ trim token = token /\ verify token = None) /\
  (forall header,
     authorization = Some header -> header <> [] ->
     authenticateToken verify authorization cookie
     = authenticateToken verify authorization None /\
     (startsWith (trim (replaceWhiteRuns header false)) (js "Bearer ") = false ->
      authenticateToken verify authorization cookie = Unauthorized)) /\
  authenticateToken verify (Some []) cookie
  = authenticateToken verify None cookie.
Proof.
  split_and!; [| | |done].
  - intros user. unfold authenticateToken.
    destruct (request_token authorization cookie) as [[|c token]|] eqn:Hrequest;
      [done| |done].
    apply request_token_trimmed in Hrequest.
    destruct (verify (c :: token)) eqn:Hverify; [|done].
    intros [= <-]. exists (c :: token). by split_and!.
  - unfold authenticateToken.
    destruct (request_token authorization cookie) as [[|c token]|] eqn:Hrequest;
      [done| |done].
    apply request_token_trimmed in Hrequest.
    destruct (verify (c :: token)) eqn:Hverify; [done|].
    intros _. exists (c :: token). by split_and!.
  - intros header -> Hheader. destruct header as [|c header]; [done|].
    split; [done|]. intros Hother.
    unfold authenticateToken, request_token. by rewrite Hother.
Qed.

Lemma token_before_verify_witness :
  authenticateToken Tokens.verify (Some (js "Basic abc.def"))
                    (Some (js "abc.def"))
  = Unauthorized /\
  authenticateToken Tokens.verify None (Some (js " abc.def "))
  = Next (mkPayload (js "ann") (js "c1")) /\
  authenticateToken Tokens.verify (Some []) (Some (js " abc.def "))
  = Next (mkPayload (js "ann") (js "c1")).
Proof.
  split; [|split; reflexivity].
  destruct (token_before_verify Tokens.verify (Some (js "Basic abc.def"))
              (Some (js "abc.def"))) as (_ & _ & Hheader & _).
  destruct (Hheader (js "Basic abc.def")) as [_ Hother]; [done..|].
  apply Hother. reflexivity.
Defined.

(** ** Regular expressions *)

Section Regex.

Implicit Types (r : regex) (s : jsstring) (c : N).

Lemma nullable_matches r : nullable r = true <-> matches r [].
Proof.
  split.
  - induction r as [| |p|r1 IH1 r2 IH2|r1 IH1 r2 IH2|r IH]; simpl; try done.
    + constructor.
    + intros [H1 H2]%andb_true_iff.
      apply (matches_seq r1 r2 [] []); auto.
    + intros [H|H]%orb_true_iff; [apply matches_alt_l|apply matches_alt_r]; auto.
    + constructor.
  - intros Hm. remember [] as s eqn:Hs.
    induction Hm as [|p c Hc|r1 r2 s1 s2 _ IH1 _ IH2|r1 r2 s _ IH|r1 r2 s _ IH
                     |r|r s1 s2 _ _ _ _]; simpl; try done.
    + apply app_eq_nil in Hs as [-> ->]. by rewrite IH1, IH2.
    + by rewrite IH.
    + rewrite IH by done. apply orb_true_r.
Qed.

(** A non-empty string of a starred pattern starts with a non-empty string
    of the pattern. *)
Lemma matches_star_cons r c s :
  matches (Star r) (c :: s) ->
  exists s1 s2, s = s1 ++ s2 /\ matches r (c :: s1) /\ matches (Star r) s2.
Proof.
  intros Hm. remember (Star r) as r' eqn:Hr. remember (c :: s) as t eqn:Ht.
  revert s Ht.
  induction Hm as [| | | | | |r0 s1 s2 H1 _ H2 IH2]; intros rest Ht; try done.
  injection Hr as ->.
  destruct s1 as [|c1 s1]; [by apply IH2|].
  injection Ht as -> <-. eauto.
Qed.

Lemma matches_unit_inv p s :
  matches (Unit p) s <-> exists c, s = [c] /\ p c = true.
Proof.
  split.
  - inversion 1; subst. eauto.
  - intros (c & -> & Hc). by constructor.
Qed.

Lemma matches_seq_inv r1 r2 s :
  matches (Seq r1 r2) s
  <-> exists s1 s2, s = s1 ++ s2 /\ matches r1 s1 /\ matches r2 s2.
Proof.
  split.
  - inversion 1; subst. eauto.
  - intros (s1 & s2 & -> & H1 & H2). by constructor.
Qed.

Lemma derive_matches r c s : matches (derive c r) s <-> matches r (c :: s).
Proof.
  revert s.
  induction r as [| |p|r1 IH1 r2 IH2|r1 IH1 r2 IH2|r IH]; intros s; simpl.
  - split; inversion 1.
  - split; inversion 1.
  - destruct (p c) eqn:Hp.
    + split.
      * inversion 1; subst. by constructor.
      * inversion 1; subst. constructor.
    + split; inversion 1; congruence.
  - destruct (nullable r1) eqn:Hnull.
    + split.
      * inversion 1 as [| | |? ? ? Hl|? ? ? Hr| |]; subst.
        -- inversion Hl as [| |? ? s1 s2 H1 H2| | | |]; subst.
           apply IH1 in H1.
           by apply (matches_seq r1 r2 (c :: s1) s2).
        -- apply IH2 in Hr. apply nullable_matches in Hnull.
           by apply (matches_seq r1 r2 [] (c :: s)).
      * intros (s1 & s2 & Heq & H1 & H2)%matches_seq_inv.
        destruct s1 as [|c1 s1]; simpl in Heq.
        -- subst s2. apply matches_alt_r. by apply IH2.
        -- injection Heq as <- ->. apply matches_alt_l.
           constructor; [by apply IH1|done].
    + split.
      * inversion 1 as [| |? ? s1 s2 H1 H2| | | |]; subst.
        apply IH1 in H1. by apply (matches_seq r1 r2 (c :: s1) s2).
      * intros (s1 & s2 & Heq & H1 & H2)%matches_seq_inv.
        destruct s1 as [|c1 s1]; simpl in Heq.
        -- apply nullable_matches in H1. congruence.
        -- injection Heq as <- ->. constructor; [by apply IH1|done].
  - split.
    + inversion 1; subst; [apply matches_alt_l|apply matches_alt_r];
        by (apply IH1 || apply IH2).
    + inversion 1; subst; [apply matches_alt_l|apply matches_alt_r];
        by (apply IH1 || apply IH2).
  - split.
    + inversion 1 as [| |? ? s1 s2 H1 H2| | | |]; subst.
      apply IH in H1. by apply (matches_star_more r (c :: s1) s2).
    + intros (s1 & s2 & -> & H1 & H2)%matches_star_cons.
      constructor; [by apply IH|done].
Qed.

(** [test] decides the strings of a pattern. *)
Lemma test_matches r s : test r s = true <-> matches r s.
Proof.
  revert r. induction s as [|c s IH]; intros r; simpl.
  - apply nullable_matches.
  - by rewrite IH, derive_matches.
Qed.

Lemma matches_star_units p s :
  matches (Star (Unit p)) s <-> Forall (fun c => p c = true) s.
Proof.
  split.
  - intros Hm. remember (Star (Unit p)) as r eqn:Hr.
    induction Hm as [| | | | | |r0 s1 s2 H1 _ H2 IH2]; try done.
    injection Hr as ->. inversion H1; subst. constructor; auto.
  - induction 1 as [|c s Hc _ IH]; [constructor|].
    apply (matches_star_more (Unit p) [c] s); [by constructor|done].
Qed.

Lemma matches_plus_units p s :
  matches (Plus (Unit p)) s <-> s <> [] /\ Forall (fun c => p c = true) s.
Proof.
  unfold Plus. rewrite matches_seq_inv. split.
  - intros (s1 & s2 & -> & (c & -> & Hc)%matches_unit_inv
              & Hs%matches_star_units).
    split; [done|by constructor].
  - intros [Hne Hall]. destruct Hall as [|c s Hc Hs]; [done|].
    exists [c], s. split_and!; [done|by constructor|by apply matches_star_units].
Qed.

Lemma matches_times_units p n s :
  matches (Times n (Unit p)) s
  <-> length s = n /\ Forall (fun c => p c = true) s.
Proof.
  revert s. induction n as [|n IH]; intros s; simpl.
  - split.
    + inversion 1. by split.
    + intros [->%nil_length_inv _]. constructor.
  - rewrite matches_seq_inv. split.
    + intros (s1 & s2 & -> & (c & -> & Hc)%matches_unit_inv & [Hlen Hall]%IH).
      simpl. split; [by rewrite Hlen|by constructor].
    + intros [Hlen Hall]. destruct Hall as [|c s Hc Hs]; [done|].
      exists [c], s. split_and!; [done|by constructor|].
      apply IH. split; [by injection Hlen|done].
Qed.

End Regex.

(** ** Phone numbers, addresses and sizes *)

Section Patterns.

Implicit Types (s w : jsstring) (c : N).

Lemma is_digit_cases c :
  is_digit c = true ->
  (c = 48 \/ c = 49 \/ c = 50 \/ c = 51 \/ c = 52 \/ c = 53 \/ c = 54
   \/ c = 55 \/ c = 56 \/ c = 57)%N.
Proof.
  unfold is_digit. intros [H1%N.leb_le H2%N.leb_le]%andb_true_iff. lia.
Qed.

Lemma is_digit_visible c : is_digit c = true -> is_white_space c = false.
Proof. intros H%is_digit_cases. by repeat destruct H as [->|H]; subst. Qed.

Lemma is_digit_plain c : is_digit c = true -> c <> AT /\ c <> LETTER_X.
Proof. intros H%is_digit_cases. by repeat destruct H as [->|H]; subst. Qed.

Lemma is_address_unit_spec c :
  is_address_unit c = true <-> is_white_space c = false /\ c <> AT.
Proof.
  unfold is_address_unit.
  rewrite andb_true_iff, !negb_true_iff, N.eqb_neq. done.
Qed.

Lemma includes_elem s c : includes s c = true <-> c ∈ s.
Proof.
  unfold includes. rewrite existsb_exists. split.
  - intros (x & Hin & ->%N.eqb_eq). by apply list_elem_of_In.
  - intros Hin. exists c. split; [by apply list_elem_of_In|apply N.eqb_refl].
Qed.

Lemma includes_not_elem s c : includes s c = false <-> c ∉ s.
Proof.
  rewrite <- includes_elem. by destruct (includes s c).
Qed.

Lemma digits_visible s :
  Forall (fun c => is_digit c = true) s -> visible s.
Proof. apply List.Forall_impl. intros c. apply is_digit_visible. Qed.

Lemma digits_without s c :
  (c = AT \/ c = LETTER_X) ->
  Forall (fun d => is_digit d = true) s -> c ∉ s.
Proof.
  intros Hc Hs Hin. rewrite List.Forall_forall in Hs.
  apply list_elem_of_In, Hs, is_digit_plain in Hin as [Hat Hx].
  by destruct Hc.
Qed.

Lemma test_phoneRegex s :
  test phoneRegex s = true
  <-> length s = 10%nat /\ Forall (fun c => is_digit c = true) s.
Proof. rewrite test_matches. apply matches_times_units. Qed.

Lemma test_emailRegex s :
  test emailRegex s = true
  <-> exists name host tail,
        s = name ++ [AT] ++ host ++ [DOT] ++ tail /\
        address_part name /\ address_part host /\ address_part tail.
Proof.
  rewrite test_matches. unfold emailRegex, address_part.
  rewrite matches_seq_inv. split.
  - intros (name & s1 & -> & Hname%matches_plus_units & H1).
    apply matches_seq_inv in H1
      as (a & s2 & -> & (c1 & -> & ->%N.eqb_eq)%matches_unit_inv & H2).
    apply matches_seq_inv in H2
      as (host & s3 & -> & Hhost%matches_plus_units & H3).
    apply matches_seq_inv in H3
      as (d & tail & -> & (c2 & -> & ->%N.eqb_eq)%matches_unit_inv
          & Htail%matches_plus_units).
    by exists name, host, tail.
  - intros (name & host & tail & -> & Hname & Hhost & Htail).
    exists name, ([AT] ++ host ++ [DOT] ++ tail).
    split_and!; [done|by apply matches_plus_units|].
    apply matches_seq; [constructor; apply N.eqb_refl|].
    apply matches_seq; [by apply matches_plus_units|].
    apply matches_seq; [constructor; apply N.eqb_refl|].
    by apply matches_plus_units.
Qed.

Lemma address_part_visible s : address_part s -> visible s /\ AT ∉ s.
Proof.
  intros [_ Hs]. split.
  - eapply List.Forall_impl; [|exact Hs].
    intros c. by intros [? _]%is_address_unit_spec.
  - intros Hin. rewrite List.Forall_forall in Hs.
    by apply list_elem_of_In, Hs, is_address_unit_spec in Hin as [_ Hne].
Qed.

End Patterns.

(** X11.  The phone pattern accepts exactly the strings of ten ASCII
    digits; such a string has no white space to trim and no [@]. *)
Theorem phone_pattern s :
  (test phoneRegex s = true
   <-> length s = 10%nat /\ Forall (fun c => is_digit c = true) s) /\
  (test phoneRegex s = true ->
   trim s = s /\ includes s AT = false).
Proof.
  split; [apply test_phoneRegex|].
  intros [Hlen Hdigits]%test_phoneRegex. split.
  - by apply trim_visible, digits_visible.
  - apply includes_not_elem, digits_without; auto.
Qed.

Lemma phone_pattern_witness :
  trim (js "9876543210") = js "9876543210" /\
  includes (js "9876543210") AT = false.
Proof.
  destruct (phone_pattern (js "9876543210")) as [_ Hphone].
  apply Hphone. reflexivity.
Defined.

(** X12.  The address pattern accepts exactly the strings made of a name,
    an [@], a host, a dot and a tail, where name, host and tail are not
    empty and hold neither white space nor [@]; such a string has exactly
    one [@] and no white space to trim. *)
Theorem email_pattern s :
  (test emailRegex s = true
   <-> exists name host tail,
         s = name ++ [AT] ++ host ++ [DOT] ++ tail /\
         address_part name /\ address_part host /\ address_part tail) /\
  (test emailRegex s = true ->
   trim s = s /\ length (filter (fun c => c = AT) s) = 1%nat).
Proof.
  split; [apply test_emailRegex|].
  intros (name & host & tail & -> & Hname & Hhost & Htail)%test_emailRegex.
  apply address_part_visible in Hname as [Vname Aname].
  apply address_part_visible in Hhost as [Vhost Ahost].
  apply address_part_visible in Htail as [Vtail Atail].
  split.
  - apply trim_visible. unfold visible.
    rewrite !Forall_app. split_and!; try done; by repeat constructor.
  - assert (forall t, AT ∉ t -> filter (fun c => c = AT) t = []) as Hnone.
    { intros t Ht. induction t as [|c t IH]; [done|].
      apply not_elem_of_cons in Ht as [Hne Ht].
      rewrite filter_cons_False by done. by apply IH. }
    unfold jsstring. rewrite !list.filter_app.
    rewrite (Hnone name), (Hnone host), (Hnone tail) by done.
    rewrite (Hnone [DOT]) by (by apply (bool_decide_unpack _)). reflexivity.
Qed.

Lemma email_pattern_witness :
  trim (js "ann@mail.example.org") = js "ann@mail.example.org" /\
  length (filter (fun c => c = AT) (js "ann@mail.example.org")) = 1%nat.
Proof.
  destruct (email_pattern (js "ann@mail.example.org")) as [_ Hemail].
  apply Hemail. reflexivity.
Defined.

(** X13.  The identifier of a login is looked up as an address when it
    holds an [@], as a phone number when it is ten digits, and as a
    username only otherwise: every accepted address and every accepted
    phone number is found, white space around it or not, and a username
    that holds an [@] or is made of ten digits is never looked up as a
    username. *)
Theorem login_query_classes toLowerCase :
  (forall w w' email,
     white w -> white w' -> test emailRegex email = true ->
     login_query toLowerCase (w ++ email ++ w') = ByEmail (toLowerCase email)) /\
  (forall w w' phone,
     white w -> white w' -> test phoneRegex phone = true ->
     login_query toLowerCase (w ++ phone ++ w') = ByPhone phone) /\
  (forall identifier username,
     login_query toLowerCase identifier = ByUsername username ->
     username = toLowerCase (trim identifier) /\
     (AT ∉ trim identifier) /\
     ~ (length (trim identifier) = 10%nat /\
        Forall (fun c => is_digit c = true) (trim identifier))).
Proof.
  split_and!.
  - intros w w' email Hw Hw' Hemail. unfold login_query.
    rewrite trim_pad by done.
    destruct (email_pattern email) as [_ Hfacts].
    destruct (Hfacts Hemail) as [-> _].
    apply test_emailRegex in Hemail as (name & host & tail & -> & _).
    rewrite (proj2 (includes_elem _ AT)); [done|].
    rewrite !elem_of_app, elem_of_cons. auto.
  - intros w w' phone Hw Hw' Hphone. unfold login_query.
    rewrite trim_pad by done.
    destruct (phone_pattern phone) as [_ Hfacts].
    destruct (Hfacts Hphone) as [-> ->]. by rewrite Hphone.
  - intros identifier username. unfold login_query.
    destruct (includes (trim identifier) AT) eqn:Hat; [done|].
    destruct (test phoneRegex (trim identifier)) eqn:Hphone; [done|].
    intros [= <-]. split_and!; [done|by apply includes_not_elem|].
    intros Hten%test_phoneRegex. congruence.
Qed.

Lemma login_query_classes_witness :
  login_query Accounts.ascii_lower (js " Ann@Mail.org ")
  = ByEmail (Accounts.ascii_lower (js "Ann@Mail.org")) /\
  login_query Accounts.ascii_lower (js "9876543210 ") = ByPhone (js "9876543210").
Proof.
  destruct (login_query_classes Accounts.ascii_lower) as (Hemail & Hphone & _).
  split.
  - apply (Hemail (js " ") (js " ") (js "Ann@Mail.org"));
      [by repeat constructor..|reflexivity].
  - apply (Hphone [] (js " ") (js "9876543210"));
      [by repeat constructor..|reflexivity].
Defined.

Lemma test_sizePattern v :
  test sizePattern v = true
  <-> exists w h, v = w ++ [LETTER_X] ++ h /\ numeral w /\ numeral h.
Proof.
  rewrite test_matches. unfold sizePattern, numeral.
  rewrite matches_seq_inv. split.
  - intros (w & s1 & -> & Hw%matches_plus_units & H1).
    apply matches_seq_inv in H1
      as (x & h & -> & (c & -> & ->%N.eqb_eq)%matches_unit_inv
          & Hh%matches_plus_units).
    by exists w, h.
  - intros (w & h & -> & Hw & Hh).
    exists w, ([LETTER_X] ++ h).
    split_and!; [done|by apply matches_plus_units|].
    apply matches_seq; [constructor; apply N.eqb_refl|].
    by apply matches_plus_units.
Qed.

Lemma digit_of_is_digit c :
  is_digit c = true -> digit 10 c = Some (Z.of_N c - 48).
Proof. intros H%is_digit_cases. by repeat destruct H as [->|H]; subst. Qed.

Lemma digits_numeral_app s t :
  Forall (fun c => is_digit c = true) s ->
  digits 10 (s ++ t) = ((fun c => Z.of_N c - 48) <$> s) ++ digits 10 t.
Proof.
  induction 1 as [|c s Hc _ IH]; [done|]. simpl.
  by rewrite (digit_of_is_digit c Hc), IH.
Qed.

Lemma NumberOfDigits_numeral s :
  numeral s -> NumberOfDigits s = Some (number_of 10 (digits 10 s)).
Proof.
  intros [Hne Hall]. unfold NumberOfDigits.
  destruct s as [|c s]; [done|].
  assert (forallb is_digit (c :: s) = true) as ->; [|done].
  apply forallb_forall. by apply List.Forall_forall.
Qed.

Lemma NumberOfDigits_Some s n : NumberOfDigits s = Some n -> numeral s.
Proof.
  unfold NumberOfDigits, numeral. destruct s as [|c s]; [done|].
  destruct (forallb is_digit (c :: s)) eqn:Hall; [|done].
  intros _. split; [done|].
  apply List.Forall_forall. by apply forallb_forall.
Qed.

Lemma split_numerals w h :
  numeral w -> numeral h -> split LETTER_X (w ++ [LETTER_X] ++ h) = [w; h].
Proof.
  intros [_ Hw] [_ Hh].
  change (w ++ [LETTER_X] ++ h) with (w ++ LETTER_X :: h).
  rewrite split_at_sep by (apply digits_without; auto).
  by rewrite split_no_sep by (apply digits_without; auto).
Qed.

(** X14.  The validator of a batch's size accepts exactly the strings made
    of a numeral, the letter x and a numeral, where both numerals denote
    the same number and that number lies between 10 and 1000000; numerals
    are read in base ten, leading zeros allowed. *)
Theorem size_validator_accepts v :
  (size_validator v = true
   <-> exists w h side,
         v = w ++ [LETTER_X] ++ h /\
         NumberOfDigits w = Some side /\ NumberOfDigits h = Some side /\
         10 <= side <= 1000000) /\
  (forall s c n,
     NumberOfDigits s = Some n -> is_digit c = true ->
     NumberOfDigits (s ++ [c]) = Some (10 * n + (Z.of_N c - 48))) /\
  (forall c, is_digit c = true -> NumberOfDigits [c] = Some (Z.of_N c - 48)).
Proof.
  split_and!.
  - unfold size_validator. split.
    + destruct (test sizePattern v) eqn:Htest; [|done]. cbn [negb].
      apply test_sizePattern in Htest as (w & h & -> & Hw & Hh).
      rewrite split_numerals by done.
      rewrite (NumberOfDigits_numeral w Hw), (NumberOfDigits_numeral h Hh).
      intros [[Heq%Z.eqb_eq Hlow%Z.leb_le]%andb_true_iff Hhigh%Z.leb_le]
               %andb_true_iff.
      exists w, h, (number_of 10 (digits 10 w)).
      rewrite (NumberOfDigits_numeral w Hw), (NumberOfDigits_numeral h Hh).
      split_and!; try done. by rewrite Heq.
    + intros (w & h & side & -> & Hw & Hh & Hlow & Hhigh).
      pose proof (NumberOfDigits_Some w side Hw) as Nw.
      pose proof (NumberOfDigits_Some h side Hh) as Nh.
      rewrite (proj2 (test_sizePattern _)) by by exists w, h.
      cbn [negb]. rewrite split_numerals by done.
      rewrite Hw, Hh.
      rewrite Z.eqb_refl. simpl.
      apply andb_true_iff. split; by apply Z.leb_le.
  - intros s c n Hs Hc.
    pose proof (NumberOfDigits_Some s n Hs) as [Hne Hall].
    rewrite (NumberOfDigits_numeral s) in Hs by done.
    injection Hs as <-.
    rewrite NumberOfDigits_numeral.
    + rewrite digits_numeral_app by done.
      rewrite <- (app_nil_r s) at 2. rewrite digits_numeral_app by done.
      simpl. rewrite (digit_of_is_digit c Hc). simpl.
      unfold number_of. rewrite app_nil_r, fold_left_app. simpl. f_equal. lia.
    + split; [by destruct s|]. apply Forall_app. split; [done|by constructor].
  - intros c Hc. rewrite NumberOfDigits_numeral by by repeat constructor.
    simpl. by rewrite (digit_of_is_digit c Hc).
Qed.

Lemma size_validator_accepts_witness :
  size_validator (js "0200x200") = true /\
  NumberOfDigits (js "200" ++ [48%N]) = Some (10 * 200 + 0).
Proof.
  destruct (size_validator_accepts (js "0200x200")) as ([_ Haccept] & Hread & _).
  split.
  - apply Haccept. exists (js "0200"), (js "200"), 200.
    split_and!; (reflexivity || lia).
  - apply (Hread (js "200") 48%N 200); reflexivity.
Defined.

Lemma parse_qr_data_positive qrData qrId batchId points :
  parse_qr_data qrData = Some (qrId, batchId, points) -> 0 < points.
Proof.
  unfold parse_qr_data.
  destruct (falsy _ || falsy _ || falsy _); [done|].
  destruct (_ ≫= second_piece) as [q|]; [|done].
  destruct (_ ≫= second_piece) as [b|]; [|done].
  destruct (_ ≫= second_piece) as [p|]; [|done].
  destruct (parseInt (trim p)) as [n|]; [|done].
  destruct (Z.leb_spec n 0); [done|]. by intros [= _ _ <-].
Qed.

(** X15.  A redemption request, whatever it holds and however it is
    answered, removes no customer and lowers no balance; a balance that
    has changed is the caller's, and the request was answered with success,
    the points earned being the difference.  Where the payload has a point
    value and the caller a balance, the two and their sum are safe
    integers, which a double holds exactly. *)
Theorem scan_qr_never_lowers db user_id qrData id bal :
  balance id db = Some bal ->
  (forall qrId batchId points mine,
     parse_qr_data qrData = Some (qrId, batchId, points) ->
     balance user_id db = Some mine ->
     safe_integers [mine; points; mine + points]) ->
  exists bal',
    balance id (run (scan_qr user_id qrData) db).2 = Some bal' /\
    bal <= bal' /\
    (bal' <> bal ->
     id = user_id /\
     exists qrId batchId summary,
       (run (scan_qr user_id qrData) db).1
       = Success (bal' - bal) bal' qrId batchId summary).
Proof.
  intros Hbal _. unfold scan_qr.
  destruct qrData as [|u qrData']; [by exists bal|].
  destruct (parse_qr_data (u :: qrData')) as [[[qrId batchId] points]|] eqn:Hparse;
    [|by exists bal].
  apply parse_qr_data_positive in Hparse. simpl.
  destruct (findActiveBatch batchId db) as [[doc qrBatch]|]; [|by exists bal].
  destruct (list_find _ _) as [[j qrCode]|]; [|by exists bal].
  destruct (QRItem.isScanned qrCode); [by exists bal|]. simpl.
  destruct (balance user_id db) as [mine|] eqn:Hmine.
  - destruct (incPoints_found user_id points db mine Hmine)
      as (customer & db1 & -> & Hid & Hpts & _ & Hmine1 & Hothers).
    simpl. destruct (decide (id = user_id)) as [->|Hne].
    + exists (mine + points). simplify_eq.
      split_and!; [done|lia|]. intros _. split; [done|].
      rewrite Hpts. replace (bal + points - bal) with points by lia. eauto.
    + exists bal. rewrite balance_saveScanned, Hothers by done.
      by split_and!.
  - rewrite incPoints_missing by done. by exists bal.
Qed.

Lemma scan_qr_never_lowers_witness :
  exists bal',
    balance (js "c2")
      (run (scan_qr (js "c2") Sample.payload) Ledger.store).2 = Some bal' /\
    12 <= bal' /\
    (bal' <> 12 ->
     js "c2" = js "c2" /\
     exists qrId batchId summary,
       (run (scan_qr (js "c2") Sample.payload) Ledger.store).1
       = Success (bal' - 12) bal' qrId batchId summary).
Proof.
  apply (scan_qr_never_lowers Ledger.store (js "c2") Sample.payload
           (js "c2") 12); [reflexivity|].
  intros qrId batchId points mine Hparse Hmine.
  vm_compute in Hparse. vm_compute in Hmine.
  injection Hparse as _ _ <-. injection Hmine as <-.
  by repeat constructor.
Defined.

(** ** An adjustment around a redemption *)

Lemma run_map_handler {A B} (f : A -> B) (h : handler A) db :
  run (map_handler f h) db = (f (run h db).1, (run h db).2).
Proof.
  revert db.
  induction h as [r|b k IH|id inc k IH|doc n k IH|u k IH|u n k IH];
    intros db; simpl; try done.
  - by destruct (incPoints id inc db).
  - by destruct (setPoints u n db).
Qed.

(** X16.  An [add] adjustment computes the new balance from the balance it
    read and writes it in a later round trip.  Served before a redemption of
    the same customer, both take effect; but when the redemption runs
    between the read and the write of the adjustment, the adjustment
    overwrites the credit: both requests answer with success, the code is
    marked scanned, and the balance holds the adjustment only.  The balance,
    the amount, the point value and the sums of them that are computed are
    safe integers, which a double holds exactly. *)
Theorem adjust_overwrites_credit
    db username amount user_id qrData qrId batchId points
    i j qrBatch qrCode k customer :
  parse_qr_data qrData = Some (qrId, batchId, points) ->
  unique_batch_ids db ->
  QRBatches db !! i = Some qrBatch ->
  QRBatch.batchId qrBatch = batchId ->
  QRBatch.isActive qrBatch = true ->
  unique_qr_ids qrBatch ->
  QRBatch.qrCodes qrBatch !! j = Some qrCode ->
  QRItem.qrId qrCode = qrId ->
  QRItem.isScanned qrCode = false ->
  list_find (fun c => Customer._id c = user_id) (Customers db)
  = Some (k, customer) ->
  findByUsername username db = Some (k, customer) ->
  safe_integers
    [Customer.points customer; amount; points;
     Customer.points customer + amount; Customer.points customer + points;
     Customer.points customer + amount + points] ->
  (exists summary db',
     serve (adjust_and_redeem username (mkBody (Some amount) (Some ADD))
                              user_id qrData) db
     = ([inl (Updated (Customer.points customer)
                      (Some (Customer.points customer + amount)) ADD);
         inr (Success points (Customer.points customer + amount + points)
                      qrId batchId summary)], db') /\
     balance user_id db' = Some (Customer.points customer + amount + points)) /\
  (exists summary db',
     interleave read_redeem_write
       (adjust_and_redeem username (mkBody (Some amount) (Some ADD))
                          user_id qrData, db)
     = ([Respond (inl (Updated (Customer.points customer)
                               (Some (Customer.points customer + amount)) ADD));
         Respond (inr (Success points (Customer.points customer + points)
                               qrId batchId summary))], db') /\
     balance user_id db' = Some (Customer.points customer + amount) /\
     scanned i j db' = Some true).
Proof.
  intros Hparse Hids Hi Hid Hact Hqrs Hj Hqr Hfresh Hcust Hname _.
  pose proof Hcust as Hk. apply list_find_Some in Hk as (Hk & Hcid & _).
  assert (balance user_id db = Some (Customer.points customer)) as Hbal
    by (unfold balance; by rewrite Hcust).
  split.
  - unfold adjust_and_redeem. cbn [serve]. rewrite run_map_handler.
    rewrite (run_update_points_found username
               (mkBody (Some amount) (Some ADD)) db amount k customer eq_refl
               Hname). cbn [fst snd]. rewrite run_map_handler.
    set (db_a := mkStore _ _).
    assert (balance user_id db_a = Some (Customer.points customer + amount))
      as Hbal_a.
    { unfold balance, db_a. simpl.
      rewrite (list_find_key_insert Customer._id user_id _ k customer) by done.
      rewrite Hcust. simpl. by rewrite decide_True. }
    destruct (run_scan_success db_a user_id qrData qrId batchId points Hparse
                i j qrBatch qrCode Hids Hi Hid Hact Hqrs Hj Hqr _ Hfresh Hbal_a)
      as (c1 & db1 & _ & _ & _ & Hrun & _ & Hbal1 & _).
    rewrite Hrun. simpl. eexists _, _. split; [reflexivity|].
    by rewrite balance_saveScanned.
  - destruct (incPoints_found user_id points db _ Hbal)
      as (c1 & db1 & Hinc & Hid1 & Hpts1 & Hbatches1 & Hbal1 & _).
    pose proof Hinc as Hinc'. unfold incPoints in Hinc'.
    rewrite Hcust in Hinc'. injection Hinc' as Hc1 Hdb1.
    assert (findByUsername username (saveScanned i j db1)
            = Some (k, with_points customer (Customer.points customer + points)))
      as Hname1.
    { rewrite <- Hdb1.
      apply (findByUsername_insert username db k customer _ _ Hname). }
    assert (exists summary,
              interleave read_redeem_write
                (adjust_and_redeem username (mkBody (Some amount) (Some ADD))
                                   user_id qrData, db)
              = ([Respond (inl (Updated (Customer.points customer)
                                  (Some (Customer.points customer + amount)) ADD));
                  Respond (inr (Success points (Customer.points customer + points)
                                  qrId batchId summary))],
                 (setPoints username (Customer.points customer + amount)
                            (saveScanned i j db1)).2)) as [summary Hrun].
    { eexists. unfold adjust_and_redeem.
      rewrite (scan_qr_parsed user_id qrData qrId batchId points Hparse).
      unfold read_redeem_write, interleave, pool_step, update_points.
      cbn -[saveScanned setPoints newPoints ADD]. rewrite Hname. cbn -[saveScanned setPoints newPoints ADD].
      rewrite <- Hid, (findActiveBatch_active db i qrBatch) by done.
      cbn -[saveScanned setPoints newPoints ADD].
      rewrite Hid, <- Hqr, (find_code_unique qrBatch j qrCode) by done.
      cbn -[saveScanned setPoints newPoints ADD]. rewrite Hfresh. cbn -[saveScanned setPoints newPoints ADD].
      rewrite Hinc. cbn -[saveScanned setPoints newPoints ADD].
      rewrite (newPoints_add (Customer.points customer) amount).
      destruct (setPoints username (Customer.points customer + amount)
                          (saveScanned i j db1)) as [updated db2] eqn:Hset.
      rewrite (setPoints_found username _ _ k _ Hname1) in Hset.
      injection Hset as <- <-. cbn -[ADD]. by rewrite Hpts1. }
    exists summary. eexists. split; [exact Hrun|].
    rewrite (setPoints_found username _ _ k _ Hname1). simpl.
    rewrite <- Hdb1. simpl. rewrite list_insert_insert_eq. split.
    + unfold balance. simpl.
      rewrite (list_find_key_insert Customer._id user_id _ k customer) by done.
      rewrite Hcust. simpl. by rewrite decide_True.
    + pose proof (scanned_saveScanned i j
                    (mkStore (<[k := with_points customer
                                       (Customer.points customer + points)]>
                                (Customers db)) (QRBatches db)) i j) as Hs.
      rewrite decide_True in Hs by done.
      unfold scanned, code_at in *. simpl in *. rewrite Hs, Hi. simpl.
      by rewrite Hj.
Qed.

Lemma adjust_overwrites_credit_witness :
  (exists summary db',
     serve (adjust_and_redeem (js "bob") (mkBody (Some 5) (Some ADD))
                              (js "c2") Sample.payload) Ledger.store
     = ([inl (Updated 12 (Some (12 + 5)) ADD);
         inr (Success 50 (12 + 5 + 50) (js "A1") (js "B1") summary)], db') /\
     balance (js "c2") db' = Some (12 + 5 + 50)) /\
  (exists summary db',
     interleave read_redeem_write
       (adjust_and_redeem (js "bob") (mkBody (Some 5) (Some ADD))
                          (js "c2") Sample.payload, Ledger.store)
     = ([Respond (inl (Updated 12 (Some (12 + 5)) ADD));
         Respond (inr (Success 50 (12 + 50) (js "A1") (js "B1") summary))],
        db') /\
     balance (js "c2") db' = Some (12 + 5) /\
     scanned 0 0 db' = Some true).
Proof.
  apply (adjust_overwrites_credit Ledger.store (js "bob") 5 (js "c2")
           Sample.payload (js "A1") (js "B1") 50 0 0
           (Sample.batch false true) (Sample.code false) 1 Ledger.bob);
    try reflexivity; try apply NoDup_singleton.
  by repeat constructor.
Defined.
